(** * Word ladder: bidirectional A* search over letter histograms

    A shallow embedding of [ladder.py].  The script works on letter-count
    histograms (anagram classes) of the words of a dictionary file and runs
    two A* searches, one from each end, advancing them alternately.

    Conventions of the embedding:
    - a histogram is the row of 26 counts that numpy holds as floats; the
      counts and all costs are small integers, so they are modelled in [Z];
    - words are ASCII strings; the dictionary is the list of lines of the
      word file, [words_original], and [wordlist] is the list of their
      histograms, as the loading loop builds them;
    - Python objects that are mutated in place (the frontier and closed lists
      of a graph, the nodes [attach] fuses) are threaded explicitly: a
      function returns the new value of every object it changes;
    - exceptions are values of [result]; the two [while] loops take fuel;
    - the progress lines that the script prints while it loads and searches
      are left out: the words that [display_moves] prints are the output. *)

From Stdlib Require Import String Ascii List ZArith Bool Lia Arith Permutation.
Import ListNotations.
Open Scope Z_scope.

(** ** Exceptions *)

Inductive exn : Type :=
| IndexError      (* list or array index out of range, pop from empty list *)
| NameError       (* a global name that is bound nowhere *)
| AttributeError. (* attribute access on None *)

Inductive result (A : Type) : Type :=
| Ok (a : A)
| Raise (e : exn).
Arguments Ok {A} a.
Arguments Raise {A} e.

Definition bind {A B : Type} (r : result A) (k : A -> result B) : result B :=
  match r with
  | Ok a => k a
  | Raise e => Raise e
  end.

Notation "x <- r ;; k" := (bind r (fun x => k))
  (at level 61, r at next level, right associativity).
Notation "' p <- r ;; k" := (bind r (fun p => k))
  (at level 61, p pattern, r at next level, right associativity).

(** ** Histograms *)

Definition Histogram : Type := list Z.

(** [np.zeros([1,26])] *)
Definition zeros26 : Histogram := repeat 0 26.

(** [str.lower] on an ASCII character. *)
Definition lower (c : ascii) : ascii :=
  let n := nat_of_ascii c in
  if ((65 <=? n) && (n <=? 90))%nat then ascii_of_nat (n + 32) else c.

(** [str.isalpha] on an ASCII character. *)
Definition isalpha (c : ascii) : bool :=
  let n := nat_of_ascii c in
  (((65 <=? n) && (n <=? 90)) || ((97 <=? n) && (n <=? 122)))%nat.

(** [hist[0,tmp] += 1] *)
Fixpoint bump (tmp : nat) (hist : Histogram) : Histogram :=
  match hist, tmp with
  | [], _ => []
  | c :: rest, O => (c + 1) :: rest
  | c :: rest, S k => c :: bump k rest
  end.

Definition word_to_histogram (wordin : string) : Histogram :=
  fold_left
    (fun hist letter =>
       if isalpha letter then bump (nat_of_ascii letter - 97) hist else hist)
    (map lower (list_ascii_of_string wordin))
    zeros26.

(** [np.sum(abs(hist1[0,:]-hist2[0,:]))] *)
Definition heuristic (hist1 hist2 : Histogram) : Z :=
  fold_right Z.add 0
    (map (fun p => Z.abs (fst p - snd p)) (combine hist1 hist2)).

(** [np.all(hist == other_hist)]: all rows have the same 26 columns; rows of
    different shapes do not compare equal. *)
Definition hist_eqb (hist other_hist : Histogram) : bool :=
  (length hist =? length other_hist)%nat
  && forallb (fun p => fst p =? snd p) (combine hist other_hist).

(** [enumerate] *)
Fixpoint enumerate_from {A : Type} (ind : Z) (l : list A) : list (Z * A) :=
  match l with
  | [] => []
  | x :: rest => (ind, x) :: enumerate_from (ind + 1) rest
  end.

Definition enumerate {A : Type} (l : list A) : list (Z * A) :=
  enumerate_from 0 l.

(** Indexing with Python's convention: [-1] is the last element. *)
Definition py_index {A : Type} (l : list A) (i : Z) : option A :=
  let n := Z.of_nat (length l) in
  if (0 <=? i) && (i <? n) then nth_error l (Z.to_nat i)
  else if (- n <=? i) && (i <? 0) then nth_error l (Z.to_nat (n + i))
  else None.

(** ** Nodes *)

(** What a node reads through its [mygraph] reference: the four attributes
    of a [SearchGraph] that are set once by its constructor. *)
Record Endpoints : Type := mkEndpoints {
  start_word : string;
  target_word : string;
  start_hist : Histogram;
  target_hist : Histogram
}.

(** The attributes as [SearchGraph.__init__] sets them. *)
Definition Endpoints_new (start_word0 target_word0 : string) : Endpoints :=
  {| start_word := start_word0;
     target_word := target_word0;
     start_hist := word_to_histogram start_word0;
     target_hist := word_to_histogram target_word0 |}.

Record Node : Type := mkNode {
  mygraph : Endpoints;
  current_hist : Histogram;
  cost_f : Z;
  cost_h : Z;
  cost_total : Z;
  actions : list Z
}.

(** [__lt__] and [__gt__] *)
Definition node_lt (self other : Node) : bool :=
  cost_total self <? cost_total other.

Definition node_gt (self other : Node) : bool :=
  cost_total self >? cost_total other.

(** [is_same_word] *)
Definition is_same_word (self other : Node) : bool :=
  hist_eqb (current_hist self) (current_hist other).

(** [is_in_list]: the first node of the list with the same histogram, or
    [False], which is [None] here. *)
Fixpoint is_in_list (self : Node) (mylist : list Node) : option Node :=
  match mylist with
  | [] => None
  | nd :: rest => if is_same_word self nd then Some nd else is_in_list self rest
  end.

(** [move_to_neighbour] *)
Definition move_to_neighbour (self : Node) (new_hist : Histogram)
    (new_index : Z) : Node :=
  let f := cost_f self + 1 in
  let h := heuristic new_hist (target_hist (mygraph self)) in
  {| mygraph := mygraph self;
     current_hist := new_hist;
     cost_f := f;
     cost_h := h;
     cost_total := f + h;
     actions := actions self ++ [new_index] |}.

(** [attach] mutates both nodes: [other.actions] is reversed in place, and
    [self] takes the concatenated path and the summed cost.  The method has
    no [return] statement, so the call evaluates to [None]; the pair holds
    the two nodes after the call. *)
Definition attach (self other : Node) : option Node * (Node * Node) :=
  let other_actions := rev (actions other) in
  let f := cost_f self + cost_f other in
  (None,
   ({| mygraph := mygraph self;
       current_hist := current_hist self;
       cost_f := f;
       cost_h := 0;
       cost_total := f + 0;
       actions := actions self ++ other_actions |},
    {| mygraph := mygraph other;
       current_hist := current_hist other;
       cost_f := cost_f other;
       cost_h := cost_h other;
       cost_total := cost_total other;
       actions := other_actions |})).

(** [list.sort] is stable and compares with [__lt__] only: insertion from
    the right puts an element in front of the first one that is not
    smaller, hence in front of its equals that came later. *)
Fixpoint insert (x : Node) (l : list Node) : list Node :=
  match l with
  | [] => [x]
  | y :: rest => if node_lt y x then y :: insert x rest else x :: y :: rest
  end.

Definition sort (l : list Node) : list Node := fold_right insert [] l.

(** ** The search graphs *)

Record SearchGraph : Type := mkSearchGraph {
  ends : Endpoints;
  frontier : list Node;
  closed : list Node;
  solution : option Node
}.

Record BiSearchGraph : Type := mkBiSearchGraph {
  north : SearchGraph;
  south : SearchGraph;
  bi_solution : option Node
}.

(** [intersect]: the first pair in (north frontier, south frontier)
    enumeration order with the same histogram is fused, and the value of
    [attach], [None], is returned. *)
Fixpoint split_same (nd1 : Node) (fr2 : list Node)
    : option (list Node * Node * list Node) :=
  match fr2 with
  | [] => None
  | nd2 :: rest =>
      if is_same_word nd1 nd2 then Some ([], nd2, rest)
      else match split_same nd1 rest with
           | Some (pre, nd, post) => Some (nd2 :: pre, nd, post)
           | None => None
           end
  end.

Fixpoint intersect_frontiers (fr1 fr2 : list Node)
    : option Node * (list Node * list Node) :=
  match fr1 with
  | [] => (None, ([], fr2))
  | nd1 :: rest1 =>
      match split_same nd1 fr2 with
      | Some (pre, nd2, post) =>
          let '(r, (nd1', nd2')) := attach nd1 nd2 in
          (r, (nd1' :: rest1, pre ++ nd2' :: post))
      | None =>
          let '(r, (rest1', fr2')) := intersect_frontiers rest1 fr2 in
          (r, (nd1 :: rest1', fr2'))
      end
  end.

Definition with_frontier (sg : SearchGraph) (fr : list Node) : SearchGraph :=
  {| ends := ends sg; frontier := fr; closed := closed sg;
     solution := solution sg |}.

Definition with_north (A : BiSearchGraph) (sg : SearchGraph) : BiSearchGraph :=
  {| north := sg; south := south A; bi_solution := bi_solution A |}.

Definition with_south (A : BiSearchGraph) (sg : SearchGraph) : BiSearchGraph :=
  {| north := north A; south := sg; bi_solution := bi_solution A |}.

Definition intersect (A : BiSearchGraph) : option Node * BiSearchGraph :=
  let '(r, (fr1, fr2)) :=
    intersect_frontiers (frontier (north A)) (frontier (south A)) in
  (r, {| north := with_frontier (north A) fr1;
         south := with_frontier (south A) fr2;
         bi_solution := bi_solution A |}).

(** [flip] is called in [BiSearchGraph.search] but bound nowhere in the
    module: evaluating the name raises. *)
Definition flip (nd : Node) : result Node := Raise NameError.

Section Dictionary.

(** The lines of the word file, as the loading loop stores them. *)
Variable words_original : list string.

Definition wordlist : list Histogram := map word_to_histogram words_original.

(** [hist_to_index]: first matching row, [-1] when there is none. *)
Fixpoint hist_to_index_from (ind : Z) (rows : list Histogram)
    (other_hist : Histogram) : Z :=
  match rows with
  | [] => -1
  | hist :: rest =>
      if hist_eqb hist other_hist then ind
      else hist_to_index_from (ind + 1) rest other_hist
  end.

Definition hist_to_index (other_hist : Histogram) : Z :=
  hist_to_index_from 0 wordlist other_hist.

(** [Node(mygraph0)]: the root node of a graph. *)
Definition Node_new (mygraph0 : Endpoints) : Node :=
  let h := heuristic (start_hist mygraph0) (target_hist mygraph0) in
  {| mygraph := mygraph0;
     current_hist := start_hist mygraph0;
     cost_f := 0;
     cost_h := h;
     cost_total := 0 + h;
     actions := [hist_to_index (start_hist mygraph0)] |}.

(** [Node(mygraph0, other_Node)]: the copy constructor. *)
Definition Node_copy (mygraph0 : Endpoints) (other_Node : Node) : Node :=
  {| mygraph := mygraph0;
     current_hist := current_hist other_Node;
     cost_f := cost_f other_Node;
     cost_h := cost_h other_Node;
     cost_total := cost_f other_Node + cost_h other_Node;
     actions := actions other_Node |}.

(** [list_of_moves]: one word per entry of [actions]. *)
Definition move_word (g : Endpoints) (index : Z) : result string :=
  match py_index wordlist index with
  | None => Raise IndexError
  | Some row =>
      if heuristic row (start_hist g) =? 0 then Ok (start_word g)
      else if heuristic row (target_hist g) =? 0 then Ok (target_word g)
      else match py_index words_original index with
           | Some w => Ok w
           | None => Raise IndexError
           end
  end.

Fixpoint moves_of (g : Endpoints) (acts : list Z) : result (list string) :=
  match acts with
  | [] => Ok []
  | index :: rest =>
      w <- move_word g index ;;
      ws <- moves_of g rest ;;
      Ok (w :: ws)
  end.

Definition list_of_moves (self : Node) : result (list string) :=
  moves_of (mygraph self) (actions self).

(** [SearchGraph(start_word0, target_word0)] *)
Definition SearchGraph_new (start_word0 target_word0 : string) : SearchGraph :=
  let g := Endpoints_new start_word0 target_word0 in
  {| ends := g; frontier := [Node_new g]; closed := []; solution := None |}.

(** The body of the [for new_index,row in enumerate(wordlist)] loop of
    [search_step], as a function of the frontier it appends to. *)
Definition visit (g : Endpoints) (test_node : Node) (closed0 : list Node)
    (fr : list Node) (entry : Z * Histogram) : list Node :=
  let '(new_index, next_hist) := entry in
  if heuristic next_hist (current_hist test_node) =? 1 then
    let new_node :=
      move_to_neighbour (Node_copy g test_node) next_hist new_index in
    match is_in_list new_node closed0 with
    | Some _ => fr
    | None =>
        match is_in_list new_node fr with
        | None => fr ++ [new_node]
        | Some tmp =>
            (* [tmp = new_node] rebinds the local name only *)
            if node_gt tmp new_node then fr else fr
        end
    end
  else fr.

Definition expand (g : Endpoints) (test_node : Node) (closed0 : list Node)
    (fr : list Node) : list Node :=
  fold_left (visit g test_node closed0) (enumerate wordlist) fr.

(** [search_step]: one iteration. *)
Definition search_step (sg : SearchGraph)
    : result (option Node * SearchGraph) :=
  match sort (frontier sg) with
  | [] => Raise IndexError
  | test_node :: rest =>
      if cost_h test_node =? 0 then
        Ok (Some test_node,
            {| ends := ends sg; frontier := rest; closed := closed sg;
               solution := Some test_node |})
      else
        let closed0 := closed sg ++ [test_node] in
        Ok (None,
            {| ends := ends sg;
               frontier := expand (ends sg) test_node closed0 rest;
               closed := closed0;
               solution := solution sg |})
  end.

(** [SearchGraph.search]; [None] stands for fuel running out. *)
Fixpoint SearchGraph_search (fuel : nat) (sg : SearchGraph)
    : option (result (option Node * SearchGraph)) :=
  match fuel with
  | O => None
  | S fuel' =>
      match frontier sg with
      | [] => Some (Ok (None, {| ends := ends sg; frontier := [];
                                 closed := closed sg; solution := None |}))
      | _ :: _ =>
          match search_step sg with
          | Raise e => Some (Raise e)
          | Ok (Some nd, sg') =>
              Some (Ok (Some nd, {| ends := ends sg'; frontier := frontier sg';
                                    closed := closed sg';
                                    solution := Some nd |}))
          | Ok (None, sg') => SearchGraph_search fuel' sg'
          end
      end
  end.

(** [BiSearchGraph(start_word0, target_word0)] *)
Definition BiSearchGraph_new (start_word0 target_word0 : string)
    : BiSearchGraph :=
  {| north := SearchGraph_new start_word0 target_word0;
     south := SearchGraph_new target_word0 start_word0;
     bi_solution := None |}.

(** One pass through the body of the [while] loop of
    [BiSearchGraph.search]: either the loop returns a value ([inl]) or the
    body ends and the loop goes on with the new state ([inr]). *)
Definition search_round (A : BiSearchGraph)
    : result (option Node + BiSearchGraph) :=
  '(nd_north, north1) <- search_step (north A) ;;
  let A1 := with_north A north1 in
  match nd_north with
  | Some nd => Ok (inl (Some nd))
  | None =>
      let '(nd_tmp, A2) := intersect A1 in
      match nd_tmp with
      | Some nd => Ok (inl (Some nd))
      | None =>
          '(nd_south, south1) <- search_step (south A2) ;;
          let A3 := with_south A2 south1 in
          match nd_south with
          | Some nd =>
              _ <- flip nd ;;
              Ok (inl (Some nd))
          | None =>
              let '(nd_tmp', A4) := intersect A3 in
              match nd_tmp' with
              | Some nd => Ok (inl (Some nd))
              | None => Ok (inr A4)
              end
          end
      end
  end.

Definition is_empty {A : Type} (l : list A) : bool :=
  match l with [] => true | _ :: _ => false end.

(** [BiSearchGraph.search]; [None] stands for fuel running out. *)
Fixpoint search (fuel : nat) (A : BiSearchGraph)
    : option (result (option Node)) :=
  match fuel with
  | O => None
  | S fuel' =>
      if is_empty (frontier (north A)) || is_empty (frontier (south A))
      then Some (Ok None)
      else match search_round A with
           | Raise e => Some (Raise e)
           | Ok (inl r) => Some (Ok r)
           | Ok (inr A') => search fuel' A'
           end
  end.

(** The script after the argument check: build the graph, search, and
    print the moves of the node found ([display_moves] prints the list that
    [list_of_moves] returns, one word per line). *)
Definition run (fuel : nat) (start_word0 target_word0 : string)
    : option (result (list string)) :=
  match search fuel (BiSearchGraph_new start_word0 target_word0) with
  | None => None
  | Some (Raise e) => Some (Raise e)
  | Some (Ok None) => Some (Raise AttributeError)
  | Some (Ok (Some node)) => Some (list_of_moves node)
  end.

End Dictionary.

(** The state of the loop of [BiSearchGraph.search] after [n] complete
    passes through its body, when the loop gets that far. *)
Fixpoint search_rounds (words_original : list string) (n : nat)
    (A : BiSearchGraph) : option BiSearchGraph :=
  match n with
  | O => Some A
  | S n' =>
      if is_empty (frontier (north A)) || is_empty (frontier (south A))
      then None
      else match search_round words_original A with
           | Ok (inr A') => search_rounds words_original n' A'
           | _ => None
           end
  end.

(** * Vocabulary of the properties *)

(** A histogram as [word_to_histogram] builds it: one count per letter. *)
Definition wf_hist (h : Histogram) : Prop := length h = 26%nat.

(** A ladder of [n] moves between histograms: each move leads to a
    histogram that passes the successor test of [search_step],
    [heuristic(next_hist, current_hist) == 1]. *)
Inductive ladder : nat -> Histogram -> Histogram -> Prop :=
| ladder_stay : forall h, wf_hist h -> ladder 0 h h
| ladder_move : forall n current next_hist h,
    wf_hist current -> wf_hist next_hist ->
    heuristic next_hist current = 1 ->
    ladder n next_hist h ->
    ladder (S n) current h.

(** One letter count differs by one and all the others agree. *)
Inductive one_count_changed : Histogram -> Histogram -> Prop :=
| occ_here : forall a b r,
    Z.abs (a - b) = 1 -> one_count_changed (a :: r) (b :: r)
| occ_later : forall a r1 r2,
    one_count_changed r1 r2 -> one_count_changed (a :: r1) (a :: r2).

(** [before l a b]: an occurrence of [a] comes before one of [b] in [l]. *)
Definition before {A : Type} (l : list A) (a b : A) : Prop :=
  exists l1 l2 l3, l = l1 ++ a :: l2 ++ b :: l3.

(** The histograms of a list of nodes, in order. *)
Definition hists (l : list Node) : list Histogram := map current_hist l.

(** The successor that [search_step] builds for dictionary row [new_index]:
    a copy of the popped node, moved to the row. *)
Definition successor (g : Endpoints) (test_node : Node)
    (next_hist : Histogram) (new_index : Z) : Node :=
  move_to_neighbour (Node_copy g test_node) next_hist new_index.

(** The nodes that a step appended to the frontier: one node left the
    frontier, everything behind the old ones is new. *)
Definition appended (sg sg' : SearchGraph) : list Node :=
  skipn (length (frontier sg) - 1) (frontier sg').

(** A run of [SearchGraph.search], with the histograms of the nodes listed
    in the order in which they were put into the frontier. *)
Inductive search_run (words_original : list string)
    (start_word0 target_word0 : string)
    : SearchGraph -> list Histogram -> Prop :=
| run_start :
    search_run words_original start_word0 target_word0
      (SearchGraph_new words_original start_word0 target_word0)
      [word_to_histogram start_word0]
| run_step : forall sg log sg',
    search_run words_original start_word0 target_word0 sg log ->
    search_step words_original sg = Ok (None, sg') ->
    search_run words_original start_word0 target_word0 sg'
      (log ++ hists (appended sg sg')).

(** What a run keeps true: the log has no histogram twice, it lists the
    histograms of the frontier and of the closed list and no others, and
    frontier nodes of equal total cost stand in the order of the log. *)
Record run_inv (sg : SearchGraph) (log : list Histogram) : Prop := {
  inv_nodup : NoDup log;
  inv_front : forall h, In h (hists (frontier sg)) -> In h log;
  inv_log : forall h, In h log ->
              In h (hists (frontier sg)) \/ In h (hists (closed sg));
  inv_order : forall a b,
      before (frontier sg) a b -> cost_total a = cost_total b ->
      before log (current_hist a) (current_hist b)
}.

(** The node that [attach] leaves in the place of [self], and the one it
    leaves in the place of [other]. *)
Definition fused_node (self other : Node) : Node :=
  fst (snd (attach self other)).

Definition flipped_node (self other : Node) : Node :=
  snd (snd (attach self other)).

(** The path has one entry more than the node has made moves. *)
Definition len_ok (n : Node) : Prop :=
  Z.of_nat (length (actions n)) = cost_f n + 1.

Section NodeInvariants.

Variable words_original : list string.
Variables start_word0 target_word0 : string.

(** The attributes of the forward graph and of the backward graph. *)
Definition north_ends : Endpoints := Endpoints_new start_word0 target_word0.

Definition south_ends : Endpoints := Endpoints_new target_word0 start_word0.

(** The path starts with the index that the root looked up. *)
Definition rooted (n : Node) : Prop :=
  exists rest,
    actions n
    = hist_to_index words_original (word_to_histogram start_word0) :: rest.

(** The last path entry names the node's histogram: the node is the root,
    or its last entry is the dictionary row it moved to. *)
Definition tip_ok (n : Node) : Prop :=
  (actions n = [hist_to_index words_original (word_to_histogram start_word0)]
   /\ current_hist n = word_to_histogram start_word0)
  \/ (exists pre (k : nat),
        actions n = pre ++ [Z.of_nat k]
        /\ nth_error (wordlist words_original) k = Some (current_hist n)).

(** The heuristic of the node is the distance of its histogram to the
    target. *)
Definition h_ok (n : Node) : Prop :=
  cost_h n = heuristic (current_hist n) (word_to_histogram target_word0).

(** A node of the forward graph that no fusion has touched. *)
Definition plain (n : Node) : Prop :=
  mygraph n = north_ends /\ rooted n /\ len_ok n /\ tip_ok n /\ h_ok n.

(** A node of the forward frontier: a node that no fusion has touched, or
    the node that [attach] left in the place of a forward frontier node [a]
    when [intersect] paired it with a node [b] of the backward frontier
    that has the same histogram. *)
Inductive north_ok : Node -> Prop :=
| north_plain : forall n, plain n -> north_ok n
| north_fused : forall a b,
    north_ok a -> len_ok b -> current_hist a = current_hist b ->
    north_ok (fused_node a b).

(** [fused n]: [attach] built [n] out of a forward frontier node and a node
    of the backward frontier with the same histogram. *)
Definition fused (n : Node) : Prop :=
  exists a b,
    north_ok a /\ len_ok b /\ current_hist a = current_hist b
    /\ n = fused_node a b.

(** What the loop of the bidirectional search keeps true. *)
Record bi_inv (A : BiSearchGraph) : Prop := {
  bi_north_ends : ends (north A) = north_ends;
  bi_south_ends : ends (south A) = south_ends;
  bi_north_frontier : Forall north_ok (frontier (north A));
  bi_north_closed : Forall plain (closed (north A));
  bi_south_frontier : Forall len_ok (frontier (south A));
  bi_south_closed : Forall len_ok (closed (south A))
}.

End NodeInvariants.

(** The states in which the loop of [BiSearchGraph.search] starts a pass. *)
Inductive bi_reachable (words_original : list string)
    (start_word0 target_word0 : string) : BiSearchGraph -> Prop :=
| reach_new :
    bi_reachable words_original start_word0 target_word0
      (BiSearchGraph_new words_original start_word0 target_word0)
| reach_round : forall A A',
    bi_reachable words_original start_word0 target_word0 A ->
    is_empty (frontier (north A)) || is_empty (frontier (south A)) = false ->
    search_round words_original A = Ok (inr A') ->
    bi_reachable words_original start_word0 target_word0 A'.

(** No histogram is in the frontier or the closed list of a graph twice,
    and all of them are the start histogram or dictionary rows. *)
Record visited_inv (words_original : list string) (start_word0 : string)
    (sg : SearchGraph) : Prop := {
  vis_nodup : NoDup (hists (frontier sg) ++ hists (closed sg));
  vis_incl : incl (hists (frontier sg) ++ hists (closed sg))
               (word_to_histogram start_word0 :: wordlist words_original)
}.

(** ** Vocabulary of the further properties *)

(** The letters that [word_to_histogram] counts: the characters of the
    lower-cased word that are alphabetic, in order. *)
Definition letters (wordin : string) : list ascii :=
  filter isalpha (map lower (list_ascii_of_string wordin)).

(** The letter counted in column [i]. *)
Definition letter_of (i : nat) : ascii := ascii_of_nat (97 + i).

(** The body of the loop of [word_to_histogram]. *)
Definition count_letter (hist : Histogram) (letter : ascii) : Histogram :=
  if isalpha letter then bump (nat_of_ascii letter - 97) hist else hist.

(** [reachable words h h']: a chain of moves leads from [h] to [h'], each
    move going to a dictionary row that passes the successor test of
    [search_step]. *)
Inductive reachable (words_original : list string)
    : Histogram -> Histogram -> Prop :=
| reach_here : forall h, reachable words_original h h
| reach_move : forall h next_hist h',
    In next_hist (wordlist words_original) ->
    heuristic next_hist h = 1 ->
    reachable words_original next_hist h' ->
    reachable words_original h h'.

(** [valid_path words start acts h]: the path [acts] begins with the index
    looked up for [start] and goes on with indices of dictionary rows, each
    row at distance 1 from the one before it (the first from [start]), and
    it ends in [h]. *)
Inductive valid_path (words_original : list string) (start : Histogram)
    : list Z -> Histogram -> Prop :=
| path_root :
    valid_path words_original start
      [hist_to_index words_original start] start
| path_move : forall acts h (k : nat) next_hist,
    valid_path words_original start acts h ->
    nth_error (wordlist words_original) k = Some next_hist ->
    heuristic next_hist h = 1 ->
    valid_path words_original start (acts ++ [Z.of_nat k]) next_hist.

(** The heuristic of a node is the distance of its histogram to the target,
    or it is 0. *)
Definition weak_h (g : Endpoints) (n : Node) : Prop :=
  cost_h n = 0
  \/ cost_h n = heuristic (current_hist n) (target_hist g).

(** What [SearchGraph.search] keeps true of every node. *)
Record sound_node (words_original : list string) (g : Endpoints)
    (n : Node) : Prop := {
  sn_path : valid_path words_original (start_hist g)
              (actions n) (current_hist n);
  sn_len : len_ok n;
  sn_h : cost_h n = heuristic (current_hist n) (target_hist g);
  sn_total : cost_total n = cost_f n + cost_h n
}.

(** What a graph keeps true of its lists: the start histogram is in one of
    them, no closed histogram is the target, and every dictionary row one
    move away from a closed histogram is in one of them. *)
Record explored (words_original : list string) (g : Endpoints)
    (sg : SearchGraph) : Prop := {
  ex_ends : ends sg = g;
  ex_start : In (start_hist g) (hists (frontier sg) ++ hists (closed sg));
  ex_closure : forall c next_hist,
      In c (hists (closed sg)) ->
      In next_hist (wordlist words_original) ->
      heuristic next_hist c = 1 ->
      In next_hist (hists (frontier sg) ++ hists (closed sg));
  ex_far : forall c, In c (hists (closed sg)) -> c <> target_hist g
}.

(** Every path entry is [-1] or the index of a dictionary row. *)
Definition in_range (words_original : list string) (n : Node) : Prop :=
  Forall (fun index => -1 <= index < Z.of_nat (length words_original))
    (actions n).

(** What the bidirectional search keeps true of every frontier node. *)
Definition bi_node (words_original : list string) (g : Endpoints)
    (n : Node) : Prop :=
  weak_h g n /\ in_range words_original n.

(** What the loop of the bidirectional search keeps true of both graphs. *)
Record bi_explored (words_original : list string)
    (start_word0 target_word0 : string) (A : BiSearchGraph) : Prop := {
  be_north : explored words_original
               (north_ends start_word0 target_word0) (north A);
  be_south : explored words_original
               (south_ends start_word0 target_word0) (south A);
  be_north_nodes : Forall (bi_node words_original
                             (north_ends start_word0 target_word0))
                     (frontier (north A));
  be_south_nodes : Forall (bi_node words_original
                             (south_ends start_word0 target_word0))
                     (frontier (south A));
  be_north_visited : visited_inv words_original start_word0 (north A);
  be_south_visited : visited_inv words_original target_word0 (south A)
}.

(** [hist_chain start hs h]: the histograms [hs] begin with [start], each
    further one passes the successor test of [search_step] against the one
    before it, and the last one is [h]. *)
Inductive hist_chain (start : Histogram)
    : list Histogram -> Histogram -> Prop :=
| chain_root : hist_chain start [start] start
| chain_move : forall hs h next_hist,
    hist_chain start hs h ->
    heuristic next_hist h = 1 ->
    hist_chain start (hs ++ [next_hist]) next_hist.

(** The words on which the embedding follows the script: every character
    is ASCII.  On any other letter [isalpha] holds in Python and
    [ord(letter)-97] is no column of the histogram, so that
    [word_to_histogram] raises an IndexError. *)
Definition is_ascii (c : ascii) : bool := (nat_of_ascii c <? 128)%nat.

Definition ascii_word (w : string) : Prop :=
  forallb is_ascii (list_ascii_of_string w) = true.

(** [__ge__] and [__le__] *)
Definition node_ge (self other : Node) : bool :=
  cost_total self >=? cost_total other.

Definition node_le (self other : Node) : bool :=
  cost_total self <=? cost_total other.

(** ** Small dictionaries *)

Definition words_abc : list string := ["a"; "ab"; "abc"]%string.

Definition words_missing_start : list string := ["ab"; "abc"]%string.

Definition words_missing_target : list string := ["a"; "ac"]%string.

Definition words_anagram : list string := ["ab"]%string.

Definition words_tie : list string :=
  ["x"; "xa"; "xb"; "xc"; "xz"; "xab"; "xabz"; "xabdz"; "xabcdz";
   "xabcd"]%string.

Definition words_detour : list string :=
  ["abcd"; "bcd"; "cd"; "d"; "de"; "bde"; "abcde"; "abde";
   "z"; "zy"; "zyx"; "zyxw"; "zyxwv"; "zyxwvu"; "zyxwvut"]%string.

Definition words_fan : list string := ["a"; "ab"; "ac"]%string.


Definition words_unfused : list string :=
  ["a"; "b"; "bd"; "ad"; "d"; "abd"]%string.

(** A dictionary in which no chain of moves leads from cat to cop, and one
    that lacks the start word x of a ladder to xabc. *)
Definition words_fixture : list string :=
  ["cat"; "cats"; "cast"; "cost"; "cot"; "cop"]%string.

Definition words_no_start : list string :=
  ["xb"; "xc"; "xa"; "xz"; "xay"; "xaby"; "xabcy"; "xabc"]%string.

(** * Properties *)

(** ** Histograms and the heuristic *)

Lemma bump_length : forall tmp hist, length (bump tmp hist) = length hist.
Proof.
  intros tmp hist; revert tmp.
  induction hist as [|c rest IH]; intros [|k]; simpl; auto.
Qed.

Lemma word_to_histogram_wf : forall w, wf_hist (word_to_histogram w).
Proof.
  intro w. unfold word_to_histogram, wf_hist.
  assert (G : forall cs h, length h = 26%nat ->
            length (fold_left
              (fun hist letter =>
                 if isalpha letter
                 then bump (nat_of_ascii letter - 97) hist else hist)
              cs h) = 26%nat).
  { induction cs as [|c cs IH]; intros h Hh; simpl; auto.
    apply IH. destruct (isalpha c); auto. now rewrite bump_length. }
  apply G. reflexivity.
Qed.

Lemma heuristic_nil_l : forall h, heuristic [] h = 0.
Proof. reflexivity. Qed.

Lemma heuristic_cons : forall a r1 b r2,
  heuristic (a :: r1) (b :: r2) = Z.abs (a - b) + heuristic r1 r2.
Proof. reflexivity. Qed.

Lemma heuristic_nonneg : forall h1 h2, 0 <= heuristic h1 h2.
Proof.
  induction h1 as [|a r1 IH]; intros [|b r2]; try (cbv; discriminate).
  rewrite heuristic_cons. specialize (IH r2). lia.
Qed.

Lemma heuristic_sym : forall h1 h2, heuristic h1 h2 = heuristic h2 h1.
Proof.
  induction h1 as [|a r1 IH]; intros [|b r2]; try reflexivity.
  rewrite !heuristic_cons, (IH r2). lia.
Qed.

Lemma heuristic_refl : forall h, heuristic h h = 0.
Proof.
  induction h as [|a r IH]; [reflexivity|].
  rewrite heuristic_cons, IH. lia.
Qed.

Lemma heuristic_triangle : forall a b c,
  length a = length b -> length b = length c ->
  heuristic a c <= heuristic a b + heuristic b c.
Proof.
  induction a as [|x a IH]; intros [|y b] [|z c] Hab Hbc;
    try discriminate; try (cbv; discriminate).
  rewrite !heuristic_cons.
  injection Hab as Hab. injection Hbc as Hbc.
  specialize (IH b c Hab Hbc). lia.
Qed.

Lemma heuristic_zero_eq : forall h1 h2,
  length h1 = length h2 -> heuristic h1 h2 = 0 -> h1 = h2.
Proof.
  induction h1 as [|a r1 IH]; intros [|b r2] Hl H0; try discriminate; auto.
  rewrite heuristic_cons in H0. injection Hl as Hl.
  pose proof (heuristic_nonneg r1 r2).
  assert (a = b) by lia. assert (heuristic r1 r2 = 0) by lia.
  f_equal; auto.
Qed.

Lemma hist_eqb_eq : forall h1 h2, hist_eqb h1 h2 = true <-> h1 = h2.
Proof.
  unfold hist_eqb.
  induction h1 as [|a r1 IH]; intros [|b r2]; simpl; split; intro H;
    try discriminate; auto.
  - apply andb_true_iff in H as [Hl H].
    apply andb_true_iff in H as [Hab H].
    apply Z.eqb_eq in Hab. subst b. f_equal. apply IH.
    now rewrite Hl, H.
  - injection H as -> ->.
    destruct (IH r2) as [_ IH']. specialize (IH' eq_refl).
    apply andb_true_iff in IH' as [Hl Hf].
    now rewrite Hl, Z.eqb_refl, Hf.
Qed.

Lemma hist_eqb_refl : forall h, hist_eqb h h = true.
Proof. intro h. now apply hist_eqb_eq. Qed.

Lemma hist_eqb_neq : forall h1 h2, hist_eqb h1 h2 = false <-> h1 <> h2.
Proof.
  intros h1 h2. split.
  - intros H E. apply hist_eqb_eq in E. congruence.
  - intro N. destruct (hist_eqb h1 h2) eqn:E; auto.
    apply hist_eqb_eq in E. contradiction.
Qed.

Lemma ladder_wf : forall n h1 h2, ladder n h1 h2 -> wf_hist h1 /\ wf_hist h2.
Proof.
  induction 1 as [h Hh | n a b c Ha Hb Hab Hl [_ IH]]; auto.
Qed.

(** The successor test of [search_step] holds of exactly the pairs of
    histograms in which one letter count differs by one. *)
Lemma heuristic_one_iff : forall h1 h2,
  length h1 = length h2 ->
  (heuristic h1 h2 = 1 <-> one_count_changed h1 h2).
Proof.
  induction h1 as [|a r1 IH]; intros [|b r2] Hl; try discriminate.
  - split; [cbv; discriminate | inversion 1].
  - injection Hl as Hl. rewrite heuristic_cons.
    pose proof (heuristic_nonneg r1 r2) as Hn.
    split.
    + intro H1.
      destruct (Z.eq_dec a b) as [->|Nab].
      * apply occ_later. apply IH; auto. lia.
      * assert (heuristic r1 r2 = 0) by lia.
        assert (r1 = r2) by (apply heuristic_zero_eq; auto). subst r2.
        apply occ_here. lia.
    + intro H. inversion H; subst.
      * rewrite heuristic_refl. lia.
      * apply IH in H1; auto. lia.
Qed.

(** C5. The L1 heuristic is admissible and consistent: histograms joined by
    a ladder of [n] unit moves are at heuristic distance at most [n], and
    one unit move changes the distance to any target by at most 1. *)
Theorem heuristic_admissible_consistent :
  forall (n : nat) (h1 h2 a b target : Histogram),
    ladder n h1 h2 ->
    wf_hist a -> wf_hist b -> wf_hist target ->
    heuristic b a = 1 ->
    heuristic h1 h2 <= Z.of_nat n
    /\ Z.abs (heuristic a target - heuristic b target) <= 1.
Proof.
  intros n h1 h2 a b target Hl Ha Hb Ht Hab. split.
  - clear a b target Ha Hb Ht Hab.
    induction Hl as [h Hh | n cur nxt h Hc Hn H1 Hl IH].
    + rewrite heuristic_refl. lia.
    + destruct (ladder_wf _ _ _ Hl) as [_ Hh].
      pose proof (heuristic_triangle cur nxt h) as T.
      unfold wf_hist in *.
      rewrite (heuristic_sym cur nxt) in T.
      specialize (T ltac:(congruence) ltac:(congruence)). lia.
  - unfold wf_hist in *.
    pose proof (heuristic_triangle a b target
                  ltac:(congruence) ltac:(congruence)) as T1.
    pose proof (heuristic_triangle b a target
                  ltac:(congruence) ltac:(congruence)) as T2.
    rewrite (heuristic_sym a b) in T1. lia.
Qed.

Lemma heuristic_admissible_consistent_witness :
  heuristic (word_to_histogram "cat") (word_to_histogram "cot") <= 2
  /\ Z.abs (heuristic (word_to_histogram "cat") (word_to_histogram "cot")
            - heuristic (word_to_histogram "ct") (word_to_histogram "cot"))
     <= 1.
Proof.
  apply (heuristic_admissible_consistent 2
           (word_to_histogram "cat") (word_to_histogram "cot")
           (word_to_histogram "cat") (word_to_histogram "ct")
           (word_to_histogram "cot")).
  - apply (ladder_move 1 _ (word_to_histogram "ct")); try reflexivity.
    apply (ladder_move 0 _ (word_to_histogram "cot")); try reflexivity.
    apply ladder_stay. reflexivity.
  - reflexivity.
  - reflexivity.
  - reflexivity.
  - reflexivity.
Defined.

(** ** The histogram-to-index lookup *)

Lemma hist_to_index_from_spec : forall rows ind h,
  (hist_to_index_from ind rows h = -1
   /\ forall row, In row rows -> row <> h)
  \/ (exists k : nat,
        hist_to_index_from ind rows h = ind + Z.of_nat k
        /\ nth_error rows k = Some h
        /\ forall j row, (j < k)%nat -> nth_error rows j = Some row ->
                         row <> h).
Proof.
  induction rows as [|hist rest IH]; intros ind h; simpl.
  - left. split; [reflexivity | intros row []].
  - destruct (hist_eqb hist h) eqn:E.
    + apply hist_eqb_eq in E. subst hist.
      right. exists 0%nat. split; [lia|]. split; [reflexivity|].
      intros j row Hj. lia.
    + apply hist_eqb_neq in E.
      destruct (IH (ind + 1) h) as [[H1 Hno] | [k [Hk [Hnth Hfirst]]]].
      * left. split; auto. intros row [<- | Hin]; auto.
      * right. exists (S k). split; [lia|]. split; [exact Hnth|].
        intros [|j] row Hj Hrow; simpl in Hrow.
        -- injection Hrow as <-. exact E.
        -- apply (Hfirst j); auto. lia.
Qed.

(** C6. The lookup is a function of the histogram and the dictionary: it
    returns the lowest index, in file order, of a row equal to the
    histogram, whatever other rows share it, and [-1] when no row does. *)
Theorem hist_to_index_first_match :
  forall (words_original : list string) (h : Histogram),
    (hist_to_index words_original h = -1
     /\ forall row, In row (wordlist words_original) -> row <> h)
    \/ (exists k : nat,
          hist_to_index words_original h = Z.of_nat k
          /\ nth_error (wordlist words_original) k = Some h
          /\ forall j row, (j < k)%nat ->
                nth_error (wordlist words_original) j = Some row ->
                row <> h).
Proof.
  intros words_original h. unfold hist_to_index.
  destruct (hist_to_index_from_spec (wordlist words_original) 0 h)
    as [H | [k [Hk H]]]; [left; exact H | right].
  exists k. split; [lia | exact H].
Qed.

(** ** Materializing a path *)

Lemma py_index_In : forall (A : Type) (l : list A) i x,
  py_index l i = Some x -> In x l.
Proof.
  intros A l i x. unfold py_index.
  destruct ((0 <=? i) && (i <? Z.of_nat (length l)));
    [|destruct ((- Z.of_nat (length l) <=? i) && (i <? 0))];
    try discriminate; apply nth_error_In.
Qed.

Lemma wordlist_wf : forall words_original row,
  In row (wordlist words_original) -> wf_hist row.
Proof.
  intros ws row H. unfold wordlist in H.
  apply in_map_iff in H as [w [<- _]]. apply word_to_histogram_wf.
Qed.

Lemma heuristic_zero_iff : forall h1 h2,
  wf_hist h1 -> wf_hist h2 -> (heuristic h1 h2 =? 0) = true <-> h1 = h2.
Proof.
  intros h1 h2 W1 W2. rewrite Z.eqb_eq. split.
  - apply heuristic_zero_eq. unfold wf_hist in *. congruence.
  - intros ->. apply heuristic_refl.
Qed.

Lemma move_word_spec : forall words_original start_word0 target_word0 index w,
  move_word words_original (Endpoints_new start_word0 target_word0) index
  = Ok w ->
  exists row,
    py_index (wordlist words_original) index = Some row
    /\ (row = word_to_histogram start_word0 -> w = start_word0)
    /\ (row <> word_to_histogram start_word0 ->
        row = word_to_histogram target_word0 -> w = target_word0)
    /\ (row <> word_to_histogram start_word0 ->
        row <> word_to_histogram target_word0 ->
        py_index words_original index = Some w).
Proof.
  intros words_original start_word0 target_word0 index w.
  set (g := Endpoints_new start_word0 target_word0).
  change (word_to_histogram start_word0) with (start_hist g).
  change (word_to_histogram target_word0) with (target_hist g).
  unfold move_word.
  destruct (py_index (wordlist words_original) index) as [row|] eqn:Erow;
    [|discriminate].
  assert (Wrow : wf_hist row)
    by (eapply wordlist_wf, py_index_In; eauto).
  assert (Ws : wf_hist (start_hist g)) by apply word_to_histogram_wf.
  assert (Wt : wf_hist (target_hist g)) by apply word_to_histogram_wf.
  intro H. exists row. split; [reflexivity|].
  destruct (heuristic row (start_hist g) =? 0) eqn:Es.
  - apply heuristic_zero_iff in Es; auto.
    injection H as <-. repeat split; intros; auto; contradiction.
  - assert (Ns : row <> start_hist g).
    { intro E. apply heuristic_zero_iff in E; auto. congruence. }
    destruct (heuristic row (target_hist g) =? 0) eqn:Et.
    + apply heuristic_zero_iff in Et; auto.
      injection H as <-. repeat split; intros; auto; contradiction.
    + assert (Nt : row <> target_hist g).
      { intro E. apply heuristic_zero_iff in E; auto. congruence. }
      destruct (py_index words_original index) as [w'|]; [|discriminate].
      injection H as <-. repeat split; intros; auto; contradiction.
Qed.

Lemma moves_of_spec : forall words_original start_word0 target_word0 acts ws,
  moves_of words_original (Endpoints_new start_word0 target_word0) acts
  = Ok ws ->
  length ws = length acts
  /\ forall k index, nth_error acts k = Some index ->
       exists w, nth_error ws k = Some w
                 /\ move_word words_original
                      (Endpoints_new start_word0 target_word0) index = Ok w.
Proof.
  intros words_original start_word0 target_word0.
  set (g := Endpoints_new start_word0 target_word0).
  induction acts as [|i rest IH]; intros ws H; simpl in H.
  - injection H as <-. split; [reflexivity|]. intros [|k] index; discriminate.
  - destruct (move_word words_original g i) as [w|e] eqn:Ew; [|discriminate].
    simpl in H.
    destruct (moves_of words_original g rest) as [ws'|e] eqn:Er;
      [|discriminate].
    simpl in H. injection H as <-.
    destruct (IH ws' eq_refl) as [Hlen Hnth].
    split; [simpl; congruence|].
    intros [|k] index Hk; simpl in Hk.
    + injection Hk as <-. exists w. split; [reflexivity | exact Ew].
    + simpl. apply Hnth; exact Hk.
Qed.

(** C10, as the code has it.  [list_of_moves] emits one word per path
    entry; an entry, interior or not, whose row equals the start histogram
    is emitted as the literal start string; an entry whose row equals the
    target histogram and differs from the start histogram is emitted as the
    literal target string; any other entry is emitted in its dictionary
    spelling. *)
Theorem list_of_moves_literal_endpoints :
  forall (words_original : list string) (start_word0 target_word0 : string)
         (nd : Node) (ws : list string),
    mygraph nd = Endpoints_new start_word0 target_word0 ->
    list_of_moves words_original nd = Ok ws ->
    length ws = length (actions nd)
    /\ forall (k : nat) (index : Z),
         nth_error (actions nd) k = Some index ->
         exists row,
           py_index (wordlist words_original) index = Some row
           /\ (row = word_to_histogram start_word0 ->
               nth_error ws k = Some start_word0)
           /\ (row <> word_to_histogram start_word0 ->
               row = word_to_histogram target_word0 ->
               nth_error ws k = Some target_word0)
           /\ (row <> word_to_histogram start_word0 ->
               row <> word_to_histogram target_word0 ->
               nth_error ws k = py_index words_original index).
Proof.
  intros words s t nd ws Hg H. unfold list_of_moves in H. rewrite Hg in H.
  destruct (moves_of_spec words s t _ _ H) as [Hlen Hnth].
  split; [exact Hlen|].
  intros k index Hk.
  destruct (Hnth k index Hk) as [w [Hw Hm]].
  destruct (move_word_spec words s t index w Hm) as [row [Hrow [Hs [Ht Ho]]]].
  exists row. simpl in *. split; [exact Hrow|].
  repeat split; intros.
  - rewrite Hw. f_equal. auto.
  - rewrite Hw. f_equal. auto.
  - rewrite Hw. symmetry. auto.
Qed.

Lemma list_of_moves_literal_endpoints_witness :
  length ["cat"; "cut"; "cot"]%string = 3%nat
  /\ forall (k : nat) (index : Z),
       nth_error [0; 2; 1] k = Some index ->
       exists row,
         py_index (wordlist ["tac"; "cot"; "cut"]%string) index = Some row
         /\ (row = word_to_histogram "cat" ->
             nth_error ["cat"; "cut"; "cot"]%string k = Some "cat"%string)
         /\ (row <> word_to_histogram "cat" ->
             row = word_to_histogram "cot" ->
             nth_error ["cat"; "cut"; "cot"]%string k = Some "cot"%string)
         /\ (row <> word_to_histogram "cat" ->
             row <> word_to_histogram "cot" ->
             nth_error ["cat"; "cut"; "cot"]%string k
             = py_index ["tac"; "cot"; "cut"]%string index).
Proof.
  exact (list_of_moves_literal_endpoints
           ["tac"; "cot"; "cut"]%string "cat" "cot"
           {| mygraph := Endpoints_new "cat" "cot";
              current_hist := word_to_histogram "cot";
              cost_f := 2; cost_h := 0; cost_total := 2;
              actions := [0; 2; 1] |}
           ["cat"; "cut"; "cot"]%string eq_refl eq_refl).
Defined.

(** ** Sorting the frontier *)

Lemma insert_In : forall x l y, In y (insert x l) <-> y = x \/ In y l.
Proof.
  induction l as [|z rest IH]; intro y; simpl.
  - intuition.
  - destruct (node_lt z x); simpl; [rewrite IH|]; intuition.
Qed.

Lemma sort_In : forall l y, In y (sort l) <-> In y l.
Proof.
  induction l as [|x rest IH]; intro y; simpl; [tauto|].
  rewrite insert_In, IH. intuition.
Qed.

Lemma sort_Forall : forall (P : Node -> Prop) l, Forall P l -> Forall P (sort l).
Proof.
  intros P l H. rewrite Forall_forall in *. intros y Hy.
  apply H, sort_In, Hy.
Qed.

Lemma sort_nil_inv : forall l, sort l = [] -> l = [].
Proof.
  intros [|x rest] H; auto.
  assert (In x (sort (x :: rest))) by (apply sort_In; now left).
  rewrite H in H0. destruct H0.
Qed.

(** The head of the sorted frontier is the first node, in list order, among
    those of least total cost, and the rest is the sorted remainder. *)
Lemma sort_head : forall l n rest,
  sort l = n :: rest ->
  exists l1 l2,
    l = l1 ++ n :: l2
    /\ (forall m, In m l1 -> cost_total n < cost_total m)
    /\ (forall m, In m l2 -> cost_total n <= cost_total m)
    /\ rest = sort (l1 ++ l2).
Proof.
  induction l as [|a l IH]; intros n rest H; simpl in H; [discriminate|].
  destruct (sort l) as [|n' rest'] eqn:Es.
  - apply sort_nil_inv in Es. subst l. simpl in H. injection H as <- <-.
    exists [], []. repeat split; auto; intros m [].
  - destruct (IH n' rest' eq_refl) as [l1 [l2 [El [H1 [H2 Er]]]]].
    simpl in H. unfold node_lt in H.
    destruct (cost_total n' <? cost_total a) eqn:Elt.
    + apply Z.ltb_lt in Elt. injection H as <- <-.
      exists (a :: l1), l2. subst l. repeat split; auto.
      * intros m [<- | Hm]; auto.
      * simpl. now rewrite <- Er.
    + apply Z.ltb_ge in Elt. injection H as <- <-.
      exists [], l. repeat split; auto.
      * intros m [].
      * intros m Hm. subst l. apply in_app_or in Hm as [Hm | [<- | Hm]].
        -- specialize (H1 m Hm). lia.
        -- exact Elt.
        -- specialize (H2 m Hm). lia.
Qed.

Lemma before_cons : forall (A : Type) (l : list A) x a b,
  before (x :: l) a b <-> (x = a /\ In b l) \/ before l a b.
Proof.
  intros A l x a b. split.
  - intros [[|y l1] [l2 [l3 E]]]; simpl in E; injection E as -> ->.
    + left. split; auto. apply in_or_app. right. now left.
    + right. now exists l1, l2, l3.
  - intros [[-> Hb] | [l1 [l2 [l3 ->]]]].
    + apply in_split in Hb as [l2 [l3 ->]]. now exists [], l2, l3.
    + now exists (x :: l1), l2, l3.
Qed.

Lemma before_In : forall (A : Type) (l : list A) a b,
  before l a b -> In a l /\ In b l.
Proof.
  intros A l a b [l1 [l2 [l3 ->]]]. split.
  - apply in_or_app. right. now left.
  - apply in_or_app. right. right. apply in_or_app. right. now left.
Qed.

Lemma before_app : forall (A : Type) (l l' : list A) a b,
  before (l ++ l') a b <->
  before l a b \/ (In a l /\ In b l') \/ before l' a b.
Proof.
  intros A l l' a b. induction l as [|x l IH]; simpl.
  - split; [auto|]. intros [[? [? [? H]]] | [[[] _] | H]]; auto.
    destruct x; discriminate.
  - rewrite !before_cons, IH, in_app_iff. intuition.
Qed.

Lemma before_map : forall (A B : Type) (f : A -> B) (l : list A) a b,
  before l a b -> before (map f l) (f a) (f b).
Proof.
  intros A B f l a b [l1 [l2 [l3 ->]]].
  exists (map f l1), (map f l2), (map f l3).
  now rewrite map_app; simpl; rewrite map_app.
Qed.

Lemma insert_before : forall x l a b,
  before (insert x l) a b ->
  (a = x /\ In b l) \/ (b = x /\ cost_total a < cost_total x) \/ before l a b.
Proof.
  induction l as [|y rest IH]; intros a b H; simpl in H.
  - apply before_cons in H as [[_ []] | [l1 [? [? E]]]].
    destruct l1; discriminate.
  - unfold node_lt in H. destruct (cost_total y <? cost_total x) eqn:E.
    + apply Z.ltb_lt in E.
      apply before_cons in H as [[<- Hb] | H].
      * apply insert_In in Hb as [-> | Hb]; [right; left; auto|].
        right. right. apply before_cons. now left.
      * apply IH in H as [[-> Hb] | [H | H]].
        -- left. split; auto. now right.
        -- right. now left.
        -- right. right. apply before_cons. now right.
    + apply before_cons in H as [[<- Hb] | H]; [now left | now right; right].
Qed.

(** Stability: nodes of equal total cost keep their relative order. *)
Lemma sort_stable : forall l a b,
  before (sort l) a b -> cost_total a = cost_total b -> before l a b.
Proof.
  induction l as [|x l IH]; intros a b H E; simpl in H.
  - destruct H as [l1 [? [? H]]]. destruct l1; discriminate.
  - apply insert_before in H as [[-> Hb] | [[-> Hlt] | H]].
    + apply before_cons. left. split; auto. now apply sort_In.
    + lia.
    + apply before_cons. right. now apply IH.
Qed.

(** ** One search step *)

Lemma is_in_list_None : forall n l,
  is_in_list n l = None <-> ~ In (current_hist n) (hists l).
Proof.
  intros n l. induction l as [|m rest IH]; simpl; [tauto|].
  unfold is_same_word. destruct (hist_eqb (current_hist n) (current_hist m)) eqn:E.
  - apply hist_eqb_eq in E. split; [discriminate | intro H; exfalso; auto].
  - apply hist_eqb_neq in E. rewrite IH. intuition.
Qed.

Lemma is_in_list_Some : forall n l m,
  is_in_list n l = Some m -> In m l /\ current_hist m = current_hist n.
Proof.
  intros n l m. induction l as [|x rest IH]; simpl; [discriminate|].
  unfold is_same_word. destruct (hist_eqb (current_hist n) (current_hist x)) eqn:E.
  - apply hist_eqb_eq in E. intro H. injection H as <-. auto.
  - intro H. destruct (IH H). auto.
Qed.

Lemma enumerate_from_In : forall (A : Type) (l : list A) ind i x,
  In (i, x) (enumerate_from ind l) <->
  exists k : nat, i = ind + Z.of_nat k /\ nth_error l k = Some x.
Proof.
  induction l as [|y rest IH]; intros ind i x; simpl.
  - split; [intros [] | intros [[|k] [_ H]]; discriminate].
  - rewrite IH. split.
    + intros [E | [k [-> Hk]]].
      * injection E as <- <-. exists 0%nat. split; [lia | reflexivity].
      * exists (S k). split; [lia | exact Hk].
    + intros [[|k] [-> Hk]]; simpl in Hk.
      * injection Hk as <-. left. f_equal. lia.
      * right. exists k. split; [lia | exact Hk].
Qed.

Lemma visit_spec : forall g t c fr new_index next_hist,
  visit g t c fr (new_index, next_hist) = fr
  \/ (heuristic next_hist (current_hist t) = 1
      /\ ~ In next_hist (hists c)
      /\ ~ In next_hist (hists fr)
      /\ visit g t c fr (new_index, next_hist)
         = fr ++ [successor g t next_hist new_index]).
Proof.
  intros g t c fr i row. unfold visit.
  destruct (heuristic row (current_hist t) =? 1) eqn:E1; [|now left].
  apply Z.eqb_eq in E1. fold (successor g t row i).
  destruct (is_in_list (successor g t row i) c) eqn:Ec; [now left|].
  destruct (is_in_list (successor g t row i) fr) eqn:Ef.
  - left. now destruct (node_gt n (successor g t row i)).
  - right. apply is_in_list_None in Ec, Ef. auto.
Qed.

Lemma expand_fold_spec : forall g t c entries fr,
  exists news,
    fold_left (visit g t c) entries fr = fr ++ news
    /\ NoDup (hists news)
    /\ forall n, In n news ->
         exists new_index next_hist,
           In (new_index, next_hist) entries
           /\ n = successor g t next_hist new_index
           /\ heuristic next_hist (current_hist t) = 1
           /\ ~ In next_hist (hists c)
           /\ ~ In next_hist (hists fr).
Proof.
  intros g t c. induction entries as [|[i row] entries IH]; intro fr;
    cbn [fold_left].
  - exists []. rewrite app_nil_r. repeat split; [constructor | intros n []].
  - destruct (visit_spec g t c fr i row) as [E | [H1 [Hc [Hf E]]]];
      rewrite E.
    + destruct (IH fr) as [news [Ee [Hnd Hn]]].
      exists news. repeat split; auto.
      intros n Hin. destruct (Hn n Hin) as [j [r [Hj H]]].
      exists j, r. split; [now right | exact H].
    + destruct (IH (fr ++ [successor g t row i])) as [news [Ee [Hnd Hn]]].
      exists (successor g t row i :: news).
      rewrite Ee, <- app_assoc. split; [reflexivity|]. split.
      * simpl. constructor; auto.
        intro Hin. unfold hists in Hin. apply in_map_iff in Hin as [n [En Hin]].
        destruct (Hn n Hin) as [j [r [_ [-> [_ [_ Hfr]]]]]].
        simpl in En. subst r. apply Hfr.
        unfold hists. rewrite map_app. apply in_or_app. right. now left.
      * intros n [<- | Hin].
        -- exists i, row. repeat split; auto. now left.
        -- destruct (Hn n Hin) as [j [r [Hj [-> [Hr [Hrc Hrf]]]]]].
           exists j, r. repeat split; auto; [now right|].
           intro Hx. apply Hrf. unfold hists. rewrite map_app.
           apply in_or_app. now left.
Qed.

Lemma expand_spec : forall words_original g t c fr,
  exists news,
    expand words_original g t c fr = fr ++ news
    /\ NoDup (hists news)
    /\ forall n, In n news ->
         exists (k : nat) next_hist,
           nth_error (wordlist words_original) k = Some next_hist
           /\ n = successor g t next_hist (Z.of_nat k)
           /\ heuristic next_hist (current_hist t) = 1
           /\ ~ In next_hist (hists c)
           /\ ~ In next_hist (hists fr).
Proof.
  intros ws g t c fr. unfold expand.
  destruct (expand_fold_spec g t c (enumerate (wordlist ws)) fr)
    as [news [E [Hnd Hn]]].
  exists news. repeat split; auto.
  intros n Hin. destruct (Hn n Hin) as [i [row [Hi H]]].
  apply enumerate_from_In in Hi as [k [-> Hk]].
  exists k, row. split; [exact Hk | exact H].
Qed.

(** What one call of [search_step] does to a graph. *)
Lemma search_step_inv : forall words_original sg r sg',
  search_step words_original sg = Ok (r, sg') ->
  exists test_node rest,
    sort (frontier sg) = test_node :: rest
    /\ ends sg' = ends sg
    /\ ((cost_h test_node = 0 /\ r = Some test_node
         /\ frontier sg' = rest /\ closed sg' = closed sg)
        \/ (cost_h test_node <> 0 /\ r = None
            /\ closed sg' = closed sg ++ [test_node]
            /\ frontier sg'
               = expand words_original (ends sg) test_node
                   (closed sg ++ [test_node]) rest)).
Proof.
  intros ws sg r sg' H. unfold search_step in H.
  destruct (sort (frontier sg)) as [|n rest]; [discriminate|].
  exists n, rest. split; [reflexivity|].
  destruct (cost_h n =? 0) eqn:E; injection H as <- <-; simpl.
  - apply Z.eqb_eq in E. split; auto.
  - apply Z.eqb_neq in E. split; auto.
Qed.

(** A step keeps every entry that it does not pop, and appends only nodes
    whose histogram no entry has: a successor whose histogram is in the
    frontier never takes the place of the entry, whatever the two cost. *)
Lemma frontier_entries_never_replaced : forall words_original sg sg',
  search_step words_original sg = Ok (None, sg') ->
  exists test_node rest news,
    sort (frontier sg) = test_node :: rest
    /\ frontier sg' = rest ++ news
    /\ forall n, In n news -> ~ In (current_hist n) (hists rest).
Proof.
  intros ws sg sg' Hstep.
  destruct (search_step_inv _ _ _ _ Hstep)
    as [n [rest [Hsort [_ [[_ [Hr _]] | [_ [_ [_ Hf]]]]]]]];
    [discriminate|].
  destruct (expand_spec ws (ends sg) n (closed sg ++ [n]) rest)
    as [news [He [_ Hnews]]].
  exists n, rest, news. split; [exact Hsort|]. split; [congruence|].
  intros m Hm. destruct (Hnews m Hm) as [k [row [_ [-> [_ [_ H]]]]]].
  exact H.
Qed.

Lemma search_step_nonempty : forall words_original sg,
  frontier sg <> [] -> exists r sg', search_step words_original sg = Ok (r, sg').
Proof.
  intros ws sg H. unfold search_step.
  destruct (sort (frontier sg)) as [|n rest] eqn:E.
  - apply sort_nil_inv in E. contradiction.
  - destruct (cost_h n =? 0); eauto.
Qed.

(** ** Which node a step removes *)

Lemma insert_length : forall x l, length (insert x l) = S (length l).
Proof.
  induction l as [|y rest IH]; simpl; auto.
  destruct (node_lt y x); simpl; auto.
Qed.

Lemma sort_length : forall l, length (sort l) = length l.
Proof.
  induction l as [|x rest IH]; simpl; auto.
  now rewrite insert_length, IH.
Qed.

Lemma hists_In : forall n l, In n l -> In (current_hist n) (hists l).
Proof. intros n l H. unfold hists. now apply in_map. Qed.

Lemma hists_sort : forall l h, In h (hists (sort l)) <-> In h (hists l).
Proof.
  intros l h. unfold hists. rewrite !in_map_iff.
  split; intros [n [E H]]; exists n; split; auto; now apply sort_In.
Qed.

Lemma run_inv_step : forall words_original sg log sg',
  run_inv sg log ->
  search_step words_original sg = Ok (None, sg') ->
  run_inv sg' (log ++ hists (appended sg sg')).
Proof.
  intros ws sg log sg' [Hnd Hfr Hlog Hord] Hstep.
  destruct (search_step_inv _ _ _ _ Hstep)
    as [n [rest [Hsort [_ [[_ [Hr _]] | [Hh [_ [Hc Hf]]]]]]]];
    [discriminate|].
  destruct (expand_spec ws (ends sg) n (closed sg ++ [n]) rest)
    as [news [He [Hnn Hnews]]].
  rewrite He in Hf.
  assert (Happ : appended sg sg' = news).
  { unfold appended. rewrite Hf.
    assert (length rest = (length (frontier sg) - 1)%nat) as <-.
    { rewrite <- (sort_length (frontier sg)), Hsort. simpl. lia. }
    rewrite skipn_app, skipn_all, Nat.sub_diag. reflexivity. }
  rewrite Happ.
  assert (Hsplit : forall h, In h (hists (frontier sg)) ->
                     In h (hists rest) \/ In h (hists (closed sg ++ [n]))).
  { intros h Hin. apply hists_sort in Hin. rewrite Hsort in Hin.
    destruct Hin as [<- | Hin]; [right | now left].
    unfold hists. rewrite map_app. apply in_or_app. right. now left. }
  assert (Hold : forall h, In h log ->
                   In h (hists rest) \/ In h (hists (closed sg ++ [n]))).
  { intros h Hin. destruct (Hlog h Hin) as [H | H]; auto.
    right. unfold hists. rewrite map_app. apply in_or_app. now left. }
  assert (Hfresh : forall h, In h log -> ~ In h (hists news)).
  { intros h Hin Hn. unfold hists in Hn.
    apply in_map_iff in Hn as [m [<- Hm]].
    destruct (Hnews m Hm) as [k [row [_ [-> [_ [Hnc Hnf]]]]]]. simpl in *.
    destruct (Hold row Hin); auto. }
  constructor.
  - apply NoDup_app; auto.
  - intros h Hin. rewrite Hf in Hin. unfold hists in Hin.
    rewrite map_app in Hin. apply in_app_or in Hin as [Hin | Hin];
      apply in_or_app; [left | now right].
    apply Hfr, hists_sort. rewrite Hsort. now right.
  - intros h Hin. rewrite Hf, Hc. unfold hists at 1. rewrite map_app.
    rewrite in_app_iff.
    apply in_app_or in Hin as [Hin | Hin]; [|left; now right].
    destruct (Hold h Hin); auto.
  - intros a b Hb Hcost. rewrite Hf in Hb.
    apply before_app in Hb as [Hb | [[Ha Hb] | Hb]]; apply before_app.
    + left. apply Hord; auto. apply sort_stable; auto.
      rewrite Hsort. apply before_cons. now right.
    + right. left. split; [|now apply hists_In].
      apply Hfr, hists_sort. rewrite Hsort. right. now apply hists_In.
    + right. right. now apply before_map.
Qed.

Lemma search_run_inv : forall words_original s t sg log,
  search_run words_original s t sg log -> run_inv sg log.
Proof.
  induction 1 as [|sg log sg' Hrun IH Hstep].
  - constructor; simpl.
    + constructor; [intros [] | constructor].
    + auto.
    + auto.
    + intros a b Hb _. apply before_cons in Hb as [[_ []] | [l1 [? [? E]]]].
      destruct l1; discriminate.
  - eapply run_inv_step; eauto.
Qed.

(** X7. The step on its own.  A search step removes from the frontier a
    node of least total cost, and among the nodes tied on the least total
    cost the one that comes first in the frontier list.  In a run of search
    steps alone every histogram enters the frontier once, and the node
    removed is the one that entered earliest among those tied. *)
Theorem search_step_pops_first_minimum :
  forall (words_original : list string) (sg sg' : SearchGraph)
         (r : option Node),
    search_step words_original sg = Ok (r, sg') ->
    exists n l1 l2 news,
      frontier sg = l1 ++ n :: l2
      /\ frontier sg' = sort (l1 ++ l2) ++ news
      /\ (r = Some n \/ (r = None /\ closed sg' = closed sg ++ [n]))
      /\ (forall m, In m l1 -> cost_total n < cost_total m)
      /\ (forall m, In m l2 -> cost_total n <= cost_total m)
      /\ (forall s t log,
            search_run words_original s t sg log ->
            NoDup log
            /\ forall m, In m l2 -> cost_total m = cost_total n ->
                 before log (current_hist n) (current_hist m)).
Proof.
  intros ws sg sg' r Hstep.
  destruct (search_step_inv _ _ _ _ Hstep)
    as [n [rest [Hsort [_ Hcases]]]].
  destruct (sort_head _ _ _ Hsort) as [l1 [l2 [Efr [H1 [H2 Erest]]]]].
  destruct (expand_spec ws (ends sg) n (closed sg ++ [n]) rest)
    as [news [He _]].
  exists n, l1, l2.
  exists (match r with Some _ => [] | None => news end).
  split; [exact Efr|]. split; [|split; [|split; [exact H1 | split; [exact H2|]]]].
  - destruct Hcases as [[_ [-> [-> _]]] | [_ [-> [_ ->]]]].
    + now rewrite app_nil_r.
    + now rewrite He, Erest.
  - destruct Hcases as [[_ [-> _]] | [_ [-> [Hc _]]]]; auto.
  - intros s t log Hrun.
    destruct (search_run_inv _ _ _ _ _ Hrun) as [Hnd _ _ Hord].
    split; [exact Hnd|].
    intros m Hm Hcost. apply Hord; auto.
    rewrite Efr. apply in_split in Hm as [l3 [l4 ->]].
    now exists l1, l3, l4.
Qed.

(** ** The intersection check *)

Lemma is_same_word_eq : forall a b,
  is_same_word a b = true <-> current_hist a = current_hist b.
Proof. intros a b. apply hist_eqb_eq. Qed.

Lemma is_same_word_neq : forall a b,
  is_same_word a b = false <-> current_hist a <> current_hist b.
Proof. intros a b. apply hist_eqb_neq. Qed.

Lemma split_same_Some : forall nd1 fr2 pre nd2 post,
  split_same nd1 fr2 = Some (pre, nd2, post) ->
  fr2 = pre ++ nd2 :: post
  /\ current_hist nd1 = current_hist nd2
  /\ forall b, In b pre -> current_hist nd1 <> current_hist b.
Proof.
  intros nd1. induction fr2 as [|x rest IH]; intros pre nd2 post H;
    simpl in H; [discriminate|].
  destruct (is_same_word nd1 x) eqn:E.
  - injection H as <- <- <-. apply is_same_word_eq in E.
    repeat split; auto.
  - destruct (split_same nd1 rest) as [[[pre' nd'] post']|]; [|discriminate].
    injection H as <- <- <-.
    destruct (IH pre' nd' post' eq_refl) as [-> [Hs Hp]].
    apply is_same_word_neq in E. repeat split; auto.
    intros b [<- | Hb]; auto.
Qed.

Lemma split_same_None : forall nd1 fr2,
  split_same nd1 fr2 = None ->
  forall b, In b fr2 -> current_hist nd1 <> current_hist b.
Proof.
  intros nd1. induction fr2 as [|x rest IH]; intros H b Hb; simpl in H;
    [destruct Hb|].
  destruct (is_same_word nd1 x) eqn:E; [discriminate|].
  destruct (split_same nd1 rest) as [[[? ?] ?]|]; [discriminate|].
  apply is_same_word_neq in E. destruct Hb as [<- | Hb]; auto.
Qed.

Lemma intersect_frontiers_spec : forall fr1 fr2,
  (snd (intersect_frontiers fr1 fr2) = (fr1, fr2)
   /\ forall a b, In a fr1 -> In b fr2 -> current_hist a <> current_hist b)
  \/ (exists pre1 nd1 post1 pre2 nd2 post2,
        fr1 = pre1 ++ nd1 :: post1
        /\ fr2 = pre2 ++ nd2 :: post2
        /\ current_hist nd1 = current_hist nd2
        /\ (forall a b, In a pre1 -> In b fr2 ->
              current_hist a <> current_hist b)
        /\ (forall b, In b pre2 -> current_hist nd1 <> current_hist b)
        /\ snd (intersect_frontiers fr1 fr2)
           = (pre1 ++ fused_node nd1 nd2 :: post1,
              pre2 ++ flipped_node nd1 nd2 :: post2)).
Proof.
  induction fr1 as [|x rest1 IH]; intro fr2; simpl.
  - left. split; auto.
  - destruct (split_same x fr2) as [[[pre nd2] post]|] eqn:Es.
    + right. destruct (split_same_Some _ _ _ _ _ Es) as [-> [Hs Hp]].
      exists [], x, rest1, pre, nd2, post. simpl.
      repeat split; auto.
    + pose proof (split_same_None _ _ Es) as Hx.
      destruct (IH fr2) as [[E Hn] | [pre1 [nd1 [post1 [pre2 [nd2 [post2
        [-> [-> [Hs [H1 [H2 E]]]]]]]]]]]].
      * left. destruct (intersect_frontiers rest1 fr2) as [r [a b]].
        simpl in *. injection E as -> ->. split; auto.
        intros a b [<- | Ha] Hb; auto.
      * right. exists (x :: pre1), nd1, post1, pre2, nd2, post2.
        destruct (intersect_frontiers (pre1 ++ nd1 :: post1)
                    (pre2 ++ nd2 :: post2)) as [r [a b]].
        simpl in *. injection E as -> ->.
        repeat split; auto.
        intros a b [<- | Ha] Hb; auto.
Qed.

Lemma intersect_frontiers_None : forall fr1 fr2,
  fst (intersect_frontiers fr1 fr2) = None.
Proof.
  induction fr1 as [|x rest1 IH]; intro fr2; simpl; auto.
  destruct (split_same x fr2) as [[[pre nd2] post]|]; auto.
  specialize (IH fr2).
  destruct (intersect_frontiers rest1 fr2) as [r [a b]]. exact IH.
Qed.

Lemma intersect_frontiers_Forall : forall (P1 P2 : Node -> Prop) fr1 fr2,
  (forall a b, P1 a -> P2 b -> current_hist a = current_hist b ->
               P1 (fused_node a b) /\ P2 (flipped_node a b)) ->
  Forall P1 fr1 -> Forall P2 fr2 ->
  Forall P1 (fst (snd (intersect_frontiers fr1 fr2)))
  /\ Forall P2 (snd (snd (intersect_frontiers fr1 fr2))).
Proof.
  intros P1 P2 fr1 fr2 Hatt F1 F2.
  destruct (intersect_frontiers_spec fr1 fr2)
    as [[E _] | [pre1 [nd1 [post1 [pre2 [nd2 [post2
         [E1 [E2 [Hs [_ [_ E]]]]]]]]]]]]; rewrite E; simpl; auto.
  subst fr1 fr2.
  apply Forall_app in F1 as [F1a F1b]. apply Forall_app in F2 as [F2a F2b].
  inversion F1b; subst. inversion F2b; subst.
  destruct (Hatt nd1 nd2) as [Ha Hb]; auto.
  split; apply Forall_app; split; auto.
Qed.


(** ** Invariants of the nodes *)

Lemma search_step_Forall :
  forall words_original (P Q : Node -> Prop) sg r sg',
    (forall t, P t -> cost_h t <> 0 -> Q t) ->
    (forall t (k : nat) row,
        P t -> cost_h t <> 0 ->
        nth_error (wordlist words_original) k = Some row ->
        heuristic row (current_hist t) = 1 ->
        P (successor (ends sg) t row (Z.of_nat k))) ->
    Forall P (frontier sg) -> Forall Q (closed sg) ->
    search_step words_original sg = Ok (r, sg') ->
    Forall P (frontier sg') /\ Forall Q (closed sg')
    /\ ends sg' = ends sg
    /\ forall nd, r = Some nd -> P nd /\ cost_h nd = 0.
Proof.
  intros ws P Q sg r sg' HPQ Hsucc HP HQ Hstep.
  destruct (search_step_inv _ _ _ _ Hstep)
    as [n [rest [Hsort [He Hcases]]]].
  apply sort_Forall in HP. rewrite Hsort in HP.
  inversion HP as [|? ? Pn Prest]; subst.
  destruct Hcases as [[Hh [-> [-> ->]]] | [Hh [-> [-> ->]]]].
  - split; [|split; [|split]]; auto.
    intros nd' E; injection E as <-; auto.
  - destruct (expand_spec ws (ends sg) n (closed sg ++ [n]) rest)
      as [news [-> [_ Hnews]]].
    split; [|split; [|split]]; auto; try discriminate.
    + apply Forall_app. split; auto.
      apply Forall_forall. intros m Hm.
      destruct (Hnews m Hm) as [k [row [Hk [-> [H1 _]]]]].
      now apply Hsucc.
    + apply Forall_app. split; auto.
Qed.

Section Invariants.

Variable words_original : list string.
Variables start_word0 target_word0 : string.

Lemma north_ok_plain : forall t, (north_ok words_original start_word0 target_word0) t -> cost_h t <> 0 -> (plain words_original start_word0 target_word0) t.
Proof.
  intros t [n Hp | a b _ _ _] Hn; [exact Hp|].
  exfalso. apply Hn. reflexivity.
Qed.

Lemma plain_north_ok : forall t, (plain words_original start_word0 target_word0) t -> (north_ok words_original start_word0 target_word0) t.
Proof. intros t H. now apply north_plain. Qed.



Lemma successor_len_ok : forall g t row i,
  len_ok t -> len_ok (successor g t row i).
Proof.
  intros g t row i H. unfold len_ok in *. simpl.
  rewrite length_app. simpl. lia.
Qed.

Lemma successor_plain : forall t (k : nat) row,
  (plain words_original start_word0 target_word0) t ->
  nth_error (wordlist words_original) k = Some row ->
  (plain words_original start_word0 target_word0) (successor (north_ends start_word0 target_word0) t row (Z.of_nat k)).
Proof.
  intros t k row [Hg [[rest Hr] [Hl [Ht Hh]]]] Hk.
  split; [reflexivity|]. split; [|split; [|split]].
  - exists (rest ++ [Z.of_nat k]). simpl. now rewrite Hr.
  - now apply successor_len_ok.
  - right. exists (actions t), k. auto.
  - reflexivity.
Qed.

Lemma attach_north_ok : forall a b,
  (north_ok words_original start_word0 target_word0) a -> len_ok b ->
  current_hist a = current_hist b ->
  (north_ok words_original start_word0 target_word0) (fused_node a b)
  /\ len_ok (flipped_node a b).
Proof.
  intros a b Ha Hb Hs. split.
  - now apply north_fused.
  - unfold len_ok in *. simpl. now rewrite length_rev.
Qed.

Lemma intersect_bi_inv : forall A,
  (bi_inv words_original start_word0 target_word0) A -> fst (intersect A) = None /\ (bi_inv words_original start_word0 target_word0) (snd (intersect A)).
Proof.
  intros A [HN HS FN CN FS CS].
  pose proof (intersect_frontiers_None (frontier (north A)) (frontier (south A)))
    as Hnone.
  pose proof (intersect_frontiers_Forall (north_ok words_original start_word0 target_word0) len_ok _ _
                attach_north_ok FN FS) as [F1 F2].
  unfold intersect.
  destruct (intersect_frontiers (frontier (north A)) (frontier (south A)))
    as [r [fr1 fr2]].
  simpl in *. split; [exact Hnone|]. constructor; simpl; auto.
Qed.

Lemma Node_new_plain : (plain words_original start_word0 target_word0) (Node_new words_original (north_ends start_word0 target_word0)).
Proof.
  split; [reflexivity|]. split; [|split; [|split]].
  - now exists [].
  - reflexivity.
  - left. split; reflexivity.
  - reflexivity.
Qed.

Lemma BiSearchGraph_new_inv :
  (bi_inv words_original start_word0 target_word0) (BiSearchGraph_new words_original start_word0 target_word0).
Proof.
  constructor; simpl; auto.
  - constructor; [|constructor]. apply plain_north_ok, Node_new_plain.
  - constructor; [|constructor]. reflexivity.
Qed.

(** One pass through the loop body keeps the invariant; what it returns is
    a forward node with heuristic 0. *)
Lemma search_round_inv : forall A x,
  (bi_inv words_original start_word0 target_word0) A ->
  search_round words_original A = Ok x ->
  match x with
  | inl r => exists nd, r = Some nd /\ (north_ok words_original start_word0 target_word0) nd /\ cost_h nd = 0
  | inr A' => (bi_inv words_original start_word0 target_word0) A'
  end.
Proof.
  intros A x Inv H. unfold search_round in H.
  destruct (search_step words_original (north A)) as [[r1 n1]|e] eqn:E1;
    [|discriminate].
  simpl in H.
  destruct Inv as [HN HS FN CN FS CS].
  destruct (search_step_Forall words_original (north_ok words_original start_word0 target_word0) (plain words_original start_word0 target_word0)
              (north A) r1 n1) as [FN1 [CN1 [HN1 Hr1]]]; auto.
  { apply north_ok_plain. }
  { intros t k row Pt Ht Hk _. rewrite HN.
    apply plain_north_ok, successor_plain; auto.
    now apply north_ok_plain. }
  destruct r1 as [nd|].
  { injection H as <-. exists nd. destruct (Hr1 nd eq_refl). auto. }
  set (A1 := with_north A n1) in *.
  assert (Inv1 : (bi_inv words_original start_word0 target_word0) A1).
  { constructor; simpl; auto. congruence. }
  destruct (intersect_bi_inv A1 Inv1) as [Hnone Inv2].
  destruct (intersect A1) as [r2 A2]. simpl in Hnone, Inv2. subst r2.
  destruct (search_step words_original (south A2)) as [[r3 s3]|e] eqn:E3;
    [|discriminate].
  simpl in H.
  destruct r3 as [nd|]; [discriminate|].
  destruct Inv2 as [HN2 HS2 FN2 CN2 FS2 CS2].
  destruct (search_step_Forall words_original len_ok len_ok
              (south A2) None s3) as [FS3 [CS3 [HS3 _]]]; auto.
  { intros t k row Pt _ _ _. now apply successor_len_ok. }
  set (A3 := with_south A2 s3) in *.
  assert (Inv3 : (bi_inv words_original start_word0 target_word0) A3).
  { constructor; simpl; auto. congruence. }
  destruct (intersect_bi_inv A3 Inv3) as [Hnone4 Inv4].
  destruct (intersect A3) as [r4 A4]. simpl in Hnone4, Inv4. subst r4.
  injection H as <-. exact Inv4.
Qed.

Lemma search_found_inv : forall fuel A nd,
  (bi_inv words_original start_word0 target_word0) A ->
  search words_original fuel A = Some (Ok (Some nd)) ->
  (north_ok words_original start_word0 target_word0) nd /\ cost_h nd = 0.
Proof.
  induction fuel as [|fuel IH]; intros A nd Inv H; simpl in H;
    [discriminate|].
  destruct (is_empty (frontier (north A)) || is_empty (frontier (south A)));
    [discriminate|].
  destruct (search_round words_original A) as [[r|A']|e] eqn:E;
    try discriminate.
  - injection H as ->.
    pose proof (search_round_inv A _ Inv E) as [nd' [E' H']].
    injection E' as <-. exact H'.
  - apply (IH A'); auto. exact (search_round_inv A _ Inv E).
Qed.

End Invariants.

(** ** The loop of the bidirectional search *)

Lemma bi_reachable_inv : forall words_original s t A,
  bi_reachable words_original s t A -> bi_inv words_original s t A.
Proof.
  induction 1 as [|A A' _ IH _ Hround].
  - apply BiSearchGraph_new_inv.
  - exact (search_round_inv words_original s t A _ IH Hround).
Qed.

Lemma north_ok_len : forall words_original s t n,
  north_ok words_original s t n ->
  len_ok n \/ fused words_original s t n.
Proof.
  intros ws s t n [m [_ [_ [Hl _]]] | a b Ha Hb Hs]; [now left|].
  right. now exists a, b.
Qed.

(** C8, as the code has it.  The root node and every successor built by
    expansion have a path of g+1 entries, and so has every closed node and
    every node of the backward graph in any state of the search.  [attach]
    keeps both paths whole: the node it builds from two nodes with g+1
    entries has heuristic 0 and g+2 entries.  A node of the forward
    frontier, and so the solution that the search returns, has g+1 entries
    unless [attach] built it. *)
Theorem path_length_invariant :
  forall (words_original : list string) (start_word0 target_word0 : string)
         (A : BiSearchGraph),
    bi_reachable words_original start_word0 target_word0 A ->
    len_ok (Node_new words_original (Endpoints_new start_word0 target_word0))
    /\ (forall g t row i, len_ok t -> len_ok (successor g t row i))
    /\ (forall n, In n (closed (north A)) \/ In n (frontier (south A))
                  \/ In n (closed (south A)) -> len_ok n)
    /\ (forall n, In n (frontier (north A)) ->
          len_ok n \/ fused words_original start_word0 target_word0 n)
    /\ (forall a b, len_ok a -> len_ok b ->
          cost_h (fused_node a b) = 0
          /\ Z.of_nat (length (actions (fused_node a b)))
             = cost_f (fused_node a b) + 2)
    /\ (forall r, search_round words_original A = Ok (inl r) ->
          exists nd,
            r = Some nd /\ cost_h nd = 0
            /\ (len_ok nd
                \/ fused words_original start_word0 target_word0 nd)).
Proof.
  intros ws s t A Hreach.
  pose proof (bi_reachable_inv _ _ _ _ Hreach) as Inv.
  destruct Inv as [HN HS FN CN FS CS].
  rewrite Forall_forall in FN, CN, FS, CS.
  split; [reflexivity|].
  split; [intros; now apply successor_len_ok|].
  split; [|split; [|split]].
  - intros n [H | [H | H]]; auto.
    destruct (CN n H) as [_ [_ [Hl _]]]. exact Hl.
  - intros n H. apply north_ok_len. auto.
  - intros a b Ha Hb. split; [reflexivity|]. unfold len_ok in *. simpl.
    rewrite length_app, length_rev. lia.
  - intros r Hr.
    pose proof (search_round_inv ws s t A (inl r)
                  (bi_reachable_inv _ _ _ _ Hreach) Hr)
      as [nd [-> [Hok Hh]]].
    exists nd. split; auto. split; auto. now apply north_ok_len.
Qed.

Lemma py_index_of_nat : forall (A : Type) (l : list A) (k : nat) x,
  nth_error l k = Some x -> py_index l (Z.of_nat k) = Some x.
Proof.
  intros A l k x H. unfold py_index.
  assert (k < length l)%nat by (apply nth_error_Some; congruence).
  replace ((0 <=? Z.of_nat k) && (Z.of_nat k <? Z.of_nat (length l)))
    with true.
  - now rewrite Nat2Z.id.
  - symmetry. apply andb_true_iff. split; [apply Z.leb_le | apply Z.ltb_lt]; lia.
Qed.






(** C4, as the code has it.  A start or target word whose histogram
    matches no dictionary row is not reported: the lookup gives [-1], the
    root nodes are built with the index that the lookup gave as their path,
    the loop is entered and its first search step is carried out. *)
Theorem missing_word_is_searched :
  forall (words_original : list string) (start_word0 target_word0 : string),
    hist_to_index words_original (word_to_histogram start_word0) = -1
    \/ hist_to_index words_original (word_to_histogram target_word0) = -1 ->
    (exists root_north root_south,
        frontier (north (BiSearchGraph_new words_original
                           start_word0 target_word0)) = [root_north]
        /\ frontier (south (BiSearchGraph_new words_original
                              start_word0 target_word0)) = [root_south]
        /\ actions root_north
           = [hist_to_index words_original (word_to_histogram start_word0)]
        /\ actions root_south
           = [hist_to_index words_original (word_to_histogram target_word0)]
        /\ (actions root_north = [-1] \/ actions root_south = [-1]))
    /\ (exists r sg',
          search_step words_original
            (north (BiSearchGraph_new words_original
                      start_word0 target_word0))
          = Ok (r, sg'))
    /\ forall fuel,
         search words_original (S fuel)
           (BiSearchGraph_new words_original start_word0 target_word0)
         = match search_round words_original
                   (BiSearchGraph_new words_original
                      start_word0 target_word0) with
           | Raise e => Some (Raise e)
           | Ok (inl r) => Some (Ok r)
           | Ok (inr A') => search words_original fuel A'
           end.
Proof.
  intros words s t Hmiss. split; [|split].
  - do 2 eexists. do 4 (split; [reflexivity|]). simpl.
    destruct Hmiss as [-> | ->]; auto.
  - apply search_step_nonempty. discriminate.
  - intro fuel. reflexivity.
Qed.

(** C3.  When the backward step of a pass returns a solution node, the
    pass evaluates [flip(nd_south)], and the name [flip] is not bound: the
    search raises instead of returning the solution with its path
    reversed. *)
Theorem backward_solution_raises :
  forall (words_original : list string) (A A2 : BiSearchGraph)
         (north1 south1 : SearchGraph) (nd_south : Node),
    search_step words_original (north A) = Ok (None, north1) ->
    intersect (with_north A north1) = (None, A2) ->
    search_step words_original (south A2) = Ok (Some nd_south, south1) ->
    search_round words_original A = Raise NameError.
Proof.
  intros words A A2 north1 south1 nd H1 H2 H3.
  unfold search_round. rewrite H1. simpl. rewrite H2, H3. reflexivity.
Qed.

(** ** Termination of the bidirectional search *)

Lemma insert_perm : forall x l, Permutation (insert x l) (x :: l).
Proof.
  induction l as [|y rest IH]; simpl; auto.
  destruct (node_lt y x); auto.
  rewrite IH. apply perm_swap.
Qed.

Lemma sort_perm : forall l, Permutation (sort l) l.
Proof.
  induction l as [|x rest IH]; simpl; auto.
  rewrite insert_perm. now constructor.
Qed.

Lemma search_step_visited : forall words_original s sg sg',
  visited_inv words_original s sg ->
  search_step words_original sg = Ok (None, sg') ->
  visited_inv words_original s sg'
  /\ length (closed sg') = S (length (closed sg)).
Proof.
  intros ws s sg sg' [Hnd Hincl] Hstep.
  destruct (search_step_inv _ _ _ _ Hstep)
    as [n [rest [Hsort [_ [[_ [Hr _]] | [_ [_ [Hc Hf]]]]]]]];
    [discriminate|].
  destruct (expand_spec ws (ends sg) n (closed sg ++ [n]) rest)
    as [news [He [Hnn Hnews]]].
  rewrite He in Hf.
  assert (Hperm : Permutation
            (hists (frontier sg') ++ hists (closed sg'))
            (hists news ++ hists (frontier sg) ++ hists (closed sg))).
  { rewrite Hf, Hc. unfold hists. rewrite !map_app. simpl.
    pose proof (Permutation_map current_hist (sort_perm (frontier sg)))
      as Hs.
    rewrite Hsort in Hs. simpl in Hs.
    transitivity (map current_hist news
                  ++ (current_hist n :: map current_hist rest)
                  ++ map current_hist (closed sg)).
    - transitivity ((map current_hist news ++ map current_hist rest)
                    ++ map current_hist (closed sg) ++ [current_hist n]).
      + apply Permutation_app_tail, Permutation_app_comm.
      + rewrite <- app_assoc. apply Permutation_app_head.
        rewrite app_assoc.
        apply (Permutation_app_comm _ [current_hist n]).
    - apply Permutation_app_head, Permutation_app_tail, Hs. }
  assert (Hfresh : forall h, In h (hists news) ->
            ~ In h (hists (frontier sg) ++ hists (closed sg))
            /\ In h (wordlist ws)).
  { intros h Hin. unfold hists in Hin.
    apply in_map_iff in Hin as [m [<- Hm]].
    destruct (Hnews m Hm) as [k [row [Hk [-> [_ [Hnc Hnf]]]]]]. simpl.
    split; [|eapply nth_error_In; eauto].
    intro Hin. apply in_app_or in Hin as [Hin | Hin].
    - apply hists_sort in Hin. rewrite Hsort in Hin.
      destruct Hin as [<- | Hin]; auto.
      apply Hnc. unfold hists. rewrite map_app. apply in_or_app.
      right. now left.
    - apply Hnc. unfold hists. rewrite map_app. apply in_or_app. now left. }
  split; [constructor|].
  - apply (Permutation_NoDup (Permutation_sym Hperm)).
    apply NoDup_app; auto.
    intros h Hh. now apply Hfresh.
  - intros h Hh. apply (Permutation_in _ Hperm) in Hh.
    apply in_app_or in Hh as [Hh | Hh]; [|now apply Hincl].
    right. now apply Hfresh.
  - rewrite Hc, length_app. simpl. lia.
Qed.

Lemma intersect_hists : forall A,
  hists (frontier (north (snd (intersect A)))) = hists (frontier (north A))
  /\ closed (north (snd (intersect A))) = closed (north A)
  /\ (is_empty (frontier (south (snd (intersect A))))
      = is_empty (frontier (south A))).
Proof.
  intro A. unfold intersect.
  destruct (intersect_frontiers_spec (frontier (north A)) (frontier (south A)))
    as [[E _] | [pre1 [nd1 [post1 [pre2 [nd2 [post2
         [E1 [E2 [_ [_ [_ E]]]]]]]]]]]];
    destruct (intersect_frontiers (frontier (north A)) (frontier (south A)))
      as [r [a b]]; simpl in *; injection E as -> ->.
  - auto.
  - rewrite E1, E2. unfold hists. rewrite !map_app. simpl.
    split; [reflexivity|]. split; [reflexivity|].
    now destruct pre2.
Qed.

Lemma search_round_north : forall words_original A A',
  search_round words_original A = Ok (inr A') ->
  exists north1,
    search_step words_original (north A) = Ok (None, north1)
    /\ hists (frontier (north A')) = hists (frontier north1)
    /\ closed (north A') = closed north1.
Proof.
  intros ws A A' H. unfold search_round in H.
  destruct (search_step ws (north A)) as [[r1 n1]|e]; [|discriminate].
  simpl in H. destruct r1 as [nd|]; [discriminate|].
  exists n1. split; [reflexivity|].
  pose proof (intersect_hists (with_north A n1)) as [H1 [C1 _]].
  destruct (intersect (with_north A n1)) as [r2 A2]. simpl in H1, C1.
  destruct r2; [discriminate|].
  destruct (search_step ws (south A2)) as [[r3 s3]|e]; [|discriminate].
  simpl in H. destruct r3; [discriminate|].
  pose proof (intersect_hists (with_south A2 s3)) as [H3 [C3 _]].
  destruct (intersect (with_south A2 s3)) as [r4 A4]. simpl in H3, C3.
  destruct r4; [discriminate|]. injection H as <-.
  rewrite H3, C3. auto.
Qed.

Lemma visited_closed_bound : forall words_original s sg,
  visited_inv words_original s sg ->
  (length (closed sg) <= S (length words_original))%nat.
Proof.
  intros ws s sg [Hnd Hincl].
  apply NoDup_app_remove_l in Hnd.
  assert (Hi : incl (hists (closed sg)) (word_to_histogram s :: wordlist ws)).
  { intros h Hh. apply Hincl, in_or_app. now right. }
  pose proof (NoDup_incl_length Hnd Hi) as Hlen.
  unfold hists, wordlist in Hlen. simpl in Hlen.
  now rewrite !length_map in Hlen.
Qed.

Lemma search_enough_fuel : forall words_original s fuel A,
  visited_inv words_original s (north A) ->
  (S (S (length words_original)) - length (closed (north A)) <= fuel)%nat ->
  search words_original fuel A <> None.
Proof.
  intros ws s. induction fuel as [|fuel IH]; intros A Inv Hfuel.
  - pose proof (visited_closed_bound _ _ _ Inv). lia.
  - simpl.
    destruct (is_empty (frontier (north A)) || is_empty (frontier (south A)));
      [discriminate|].
    destruct (search_round ws A) as [[r|A']|e] eqn:E; try discriminate.
    destruct (search_round_north _ _ _ E) as [n1 [Hstep [Hh Hc]]].
    destruct (search_step_visited _ _ _ _ Inv Hstep) as [[Hnd Hincl] Hlen].
    apply IH.
    + constructor; rewrite Hh, Hc; auto.
    + rewrite Hc, Hlen. lia.
Qed.

(** The loop of [BiSearchGraph.search] ends: every pass that does not end
    it closes a forward node with a histogram not closed before, and there
    are at most as many of those as the dictionary has rows, plus one for
    the start word. *)
Lemma search_total : forall words_original start_word0 target_word0 fuel,
  (length words_original + 2 <= fuel)%nat ->
  exists r,
    search words_original fuel
      (BiSearchGraph_new words_original start_word0 target_word0) = Some r.
Proof.
  intros ws s t fuel Hfuel.
  destruct (search ws fuel (BiSearchGraph_new ws s t)) as [r|] eqn:E;
    [now exists r|].
  exfalso. revert E. apply (search_enough_fuel ws s).
  - constructor; simpl.
    + constructor; [intros [] | constructor].
    + intros h [<- | []]. now left.
  - simpl. lia.
Qed.

Lemma search_more_fuel : forall words_original fuel fuel' A r,
  search words_original fuel A = Some r ->
  (fuel <= fuel')%nat ->
  search words_original fuel' A = Some r.
Proof.
  intros ws. induction fuel as [|fuel IH]; intros fuel' A r H Hle;
    [discriminate|].
  destruct fuel' as [|fuel']; [lia|]. simpl in *.
  destruct (is_empty (frontier (north A)) || is_empty (frontier (south A)));
    auto.
  destruct (search_round ws A) as [[x|A']|e]; auto.
  apply (IH fuel' A' r H). lia.
Qed.

(** * Runs on small dictionaries *)

Lemma word_to_histogram_example :
  word_to_histogram "Cat's"
  = [1; 0; 1; 0; 0; 0; 0; 0; 0; 0; 0; 0; 0;
     0; 0; 0; 0; 0; 1; 1; 0; 0; 0; 0; 0; 0].
Proof. reflexivity. Qed.

Lemma hist_to_index_example :
  hist_to_index ["tac"; "act"; "cot"; "cat"]%string (word_to_histogram "cat")
  = 0
  /\ hist_to_index ["tac"; "act"; "cot"; "cat"]%string (word_to_histogram "xyz")
     = -1.
Proof. split; reflexivity. Qed.


(** C2: the dictionary [words_detour], from abcd to z.  After six passes
    the forward frontier holds abde, with total cost 7, and bde, which was
    reached over d and de with total cost 9.  The seventh forward step pops
    abde; its successor bde has total cost 7, which is lower than 9, and
    the comparison of the decrease-key branch succeeds, but the frontier
    after the step still holds the entry of cost 9 and not the
    successor. *)
Lemma decrease_key_not_applied :
  exists A6 test_node old sg',
    search_rounds words_detour 6 (BiSearchGraph_new words_detour "abcd" "z")
    = Some A6
    /\ sort (frontier (north A6)) = [test_node; old]
    /\ nth_error (wordlist words_detour) 5 = Some (word_to_histogram "bde")
    /\ heuristic (word_to_histogram "bde") (current_hist test_node) = 1
    /\ is_in_list
         (successor (ends (north A6)) test_node (word_to_histogram "bde") 5)
         (closed (north A6) ++ [test_node]) = None
    /\ is_in_list
         (successor (ends (north A6)) test_node (word_to_histogram "bde") 5)
         [old] = Some old
    /\ cost_total
         (successor (ends (north A6)) test_node (word_to_histogram "bde") 5)
       = 7
    /\ cost_total old = 9
    /\ node_gt old
         (successor (ends (north A6)) test_node (word_to_histogram "bde") 5)
       = true
    /\ search_step words_detour (north A6) = Ok (None, sg')
    /\ frontier sg' = [old]
    /\ ~ In (successor (ends (north A6)) test_node
               (word_to_histogram "bde") 5) (frontier sg').
Proof.
  do 4 eexists. do 11 (split; [lazy; reflexivity|]).
  lazy. intros [H | []]. discriminate H.
Qed.


(** C3: with the dictionary a, ac and the words a and ab, the backward
    search reaches a in its second step, and the run ends in a NameError. *)
Lemma backward_solution_raises_witness :
  exists A north1 A2 south1 nd_south,
    search_rounds words_missing_target 1
      (BiSearchGraph_new words_missing_target "a" "ab") = Some A
    /\ search_step words_missing_target (north A) = Ok (None, north1)
    /\ intersect (with_north A north1) = (None, A2)
    /\ search_step words_missing_target (south A2) = Ok (Some nd_south, south1)
    /\ actions nd_south = [-1; 0]
    /\ search_round words_missing_target A = Raise NameError
    /\ run words_missing_target 2 "a" "ab" = Some (Raise NameError).
Proof.
  do 5 eexists.
  split; [lazy; reflexivity|].
  split; [lazy; reflexivity|].
  split; [lazy; reflexivity|].
  split; [lazy; reflexivity|].
  split; [lazy; reflexivity|].
  split; [|lazy; reflexivity].
  eapply backward_solution_raises; lazy; reflexivity.
Defined.

(** C4: the start word a has no row in the dictionary ab, abc, yet the
    loop runs a full pass and the search returns a path. *)
Lemma missing_word_counterexample :
  exists A1,
    hist_to_index words_missing_start (word_to_histogram "a") = -1
    /\ search_rounds words_missing_start 1
         (BiSearchGraph_new words_missing_start "a" "ab") = Some A1
    /\ run words_missing_start 2 "a" "ab"
       = Some (Ok ["abc"; "ab"; "ab"]%string).
Proof.
  eexists. do 2 (split; [lazy; reflexivity|]). lazy; reflexivity.
Qed.

Lemma missing_word_is_searched_witness :
  (hist_to_index words_missing_start (word_to_histogram "a") = -1
   \/ hist_to_index words_missing_start (word_to_histogram "ab") = -1)
  /\ (exists root_north root_south,
        frontier (north (BiSearchGraph_new words_missing_start "a" "ab"))
        = [root_north]
        /\ frontier (south (BiSearchGraph_new words_missing_start "a" "ab"))
           = [root_south]
        /\ actions root_north
           = [hist_to_index words_missing_start (word_to_histogram "a")]
        /\ actions root_south
           = [hist_to_index words_missing_start (word_to_histogram "ab")]
        /\ (actions root_north = [-1] \/ actions root_south = [-1]))
  /\ (exists r sg',
        search_step words_missing_start
          (north (BiSearchGraph_new words_missing_start "a" "ab"))
        = Ok (r, sg'))
  /\ forall fuel,
       search words_missing_start (S fuel)
         (BiSearchGraph_new words_missing_start "a" "ab")
       = match search_round words_missing_start
                 (BiSearchGraph_new words_missing_start "a" "ab") with
         | Raise e => Some (Raise e)
         | Ok (inl r) => Some (Ok r)
         | Ok (inr A') => search words_missing_start fuel A'
         end.
Proof.
  assert (H : hist_to_index words_missing_start (word_to_histogram "a") = -1
              \/ hist_to_index words_missing_start (word_to_histogram "ab")
                 = -1)
    by (left; reflexivity).
  split; [exact H|].
  exact (missing_word_is_searched words_missing_start "a" "ab" H).
Defined.

(** C7: the dictionary [words_tie], from x to xabcd.  The node of xz
    enters the forward frontier in the first pass, the node of xab in the
    second.  The fusion at the end of the fourth pass raises the cost of
    the xab node from 4 to 6, the cost of the xz node, and the loop goes
    on; the fifth forward step removes the xab node, although the xz node
    entered earlier and costs the same. *)
Lemma tie_break_after_fusion :
  exists A1 A4 n m sg',
    search_rounds words_tie 1 (BiSearchGraph_new words_tie "x" "xabcd")
    = Some A1
    /\ search_rounds words_tie 4 (BiSearchGraph_new words_tie "x" "xabcd")
       = Some A4
    /\ frontier (north A4) = [n; m]
    /\ current_hist n = word_to_histogram "xab"
    /\ current_hist m = word_to_histogram "xz"
    /\ cost_total n = 6
    /\ cost_total m = 6
    /\ is_in_list m (frontier (north A1)) = Some m
    /\ is_in_list n (frontier (north A1) ++ closed (north A1)) = None
    /\ search_step words_tie (north A4) = Ok (Some n, sg')
    /\ frontier sg' = [m]
    /\ search words_tie 5 (BiSearchGraph_new words_tie "x" "xabcd")
       = Some (Ok (Some n)).
Proof.
  do 5 eexists. do 11 (split; [lazy; reflexivity|]). lazy; reflexivity.
Qed.

Lemma search_step_pops_first_minimum_witness :
  exists sg1 sg2,
    search_step words_fan (SearchGraph_new words_fan "a" "abc")
    = Ok (None, sg1)
    /\ search_step words_fan sg1 = Ok (None, sg2)
    /\ exists n l1 l2 news,
        frontier sg1 = l1 ++ n :: l2
        /\ frontier sg2 = sort (l1 ++ l2) ++ news
        /\ (@None Node = Some n
            \/ (@None Node = None /\ closed sg2 = closed sg1 ++ [n]))
        /\ (forall m, In m l1 -> cost_total n < cost_total m)
        /\ (forall m, In m l2 -> cost_total n <= cost_total m)
        /\ (forall s t log,
              search_run words_fan s t sg1 log ->
              NoDup log
              /\ forall m, In m l2 -> cost_total m = cost_total n ->
                   before log (current_hist n) (current_hist m)).
Proof.
  do 2 eexists. split; [lazy; reflexivity|].
  split; [lazy; reflexivity|].
  apply (search_step_pops_first_minimum words_fan _ _ None).
  lazy; reflexivity.
Defined.

(** C8: the node that the search returns for a, abc over a, ab, abc has
    made 2 moves and has a path of 4 entries. *)
Lemma path_length_counterexample :
  exists nd,
    search words_abc 2 (BiSearchGraph_new words_abc "a" "abc")
    = Some (Ok (Some nd))
    /\ cost_f nd = 2
    /\ length (actions nd) = 4%nat
    /\ ~ len_ok nd.
Proof.
  eexists. do 3 (split; [lazy; reflexivity|]).
  unfold len_ok. simpl. lia.
Qed.

Lemma path_length_invariant_witness :
  exists A1,
    search_round words_abc (BiSearchGraph_new words_abc "a" "abc")
    = Ok (inr A1)
    /\ bi_reachable words_abc "a" "abc" A1
    /\ len_ok (Node_new words_abc (Endpoints_new "a" "abc"))
    /\ (forall g t row i, len_ok t -> len_ok (successor g t row i))
    /\ (forall n, In n (closed (north A1)) \/ In n (frontier (south A1))
                  \/ In n (closed (south A1)) -> len_ok n)
    /\ (forall n, In n (frontier (north A1)) ->
          len_ok n \/ fused words_abc "a" "abc" n)
    /\ (forall a b, len_ok a -> len_ok b ->
          cost_h (fused_node a b) = 0
          /\ Z.of_nat (length (actions (fused_node a b)))
             = cost_f (fused_node a b) + 2)
    /\ (forall r, search_round words_abc A1 = Ok (inl r) ->
          exists nd,
            r = Some nd /\ cost_h nd = 0
            /\ (len_ok nd \/ fused words_abc "a" "abc" nd)).
Proof.
  eexists. split; [lazy; reflexivity|].
  match goal with
  | |- ?R /\ _ =>
      assert (HR : R)
        by (eapply reach_round;
            [apply reach_new | lazy; reflexivity | lazy; reflexivity])
  end.
  split; [exact HR|].
  exact (path_length_invariant _ _ _ _ HR).
Defined.



(** The node returned over [words_abc] is the one that [attach] built from
    the forward node of ab and the backward node of ab, neither touched by
    a fusion before. *)
Lemma once_fused_solution_run :
  exists a b,
    search words_abc 2 (BiSearchGraph_new words_abc "a" "abc")
    = Some (Ok (Some (fused_node a b)))
    /\ plain words_abc "a" "abc" a
    /\ plain words_abc "abc" "a" b
    /\ actions a = [0; 1] /\ actions b = [2; 1]
    /\ actions (fused_node a b) = [0; 1; 1; 2]
    /\ cost_f (fused_node a b) = 2.
Proof.
  exists (successor (Endpoints_new "a" "abc")
            (Node_new words_abc (Endpoints_new "a" "abc"))
            (word_to_histogram "ab") 1),
         (successor (Endpoints_new "abc" "a")
            (Node_new words_abc (Endpoints_new "abc" "a"))
            (word_to_histogram "ab") 1).
  split; [lazy; reflexivity|].
  split; [|split].
  - split; [reflexivity|]. split; [now exists [1]|].
    split; [reflexivity|]. split; [|reflexivity].
    right. exists [0], 1%nat. split; reflexivity.
  - split; [reflexivity|]. split; [now exists [1]|].
    split; [reflexivity|]. split; [|reflexivity].
    right. exists [2], 1%nat. split; reflexivity.
  - repeat split; reflexivity.
Qed.

(** Over [words_unfused] the search from a to bd returns a node that no
    fusion has touched: it has made 3 moves, its path has 4 entries and the
    last word listed is the target word. *)
Lemma unfused_solution_run :
  exists nd,
    search words_unfused 10 (BiSearchGraph_new words_unfused "a" "bd")
    = Some (Ok (Some nd))
    /\ plain words_unfused "a" "bd" nd
    /\ actions nd = [0; 3; 5; 2]
    /\ cost_f nd = 3
    /\ list_of_moves words_unfused nd
       = Ok ["a"; "ad"; "abd"; "bd"]%string.
Proof.
  eexists. split; [lazy; reflexivity|]. split.
  - split; [reflexivity|]. split; [now exists [3; 5; 2]|].
    split; [reflexivity|]. split; [|reflexivity].
    right. exists [0; 3; 5], 2%nat. split; reflexivity.
  - repeat split; reflexivity.
Qed.

(** C10: between the anagrams ab and ba the only path entry is a row equal
    to the target's histogram, and it is emitted as the start string. *)
Lemma literal_target_counterexample :
  py_index (wordlist words_anagram) 0 = Some (word_to_histogram "ba")
  /\ actions (Node_new words_anagram (Endpoints_new "ab" "ba")) = [0]
  /\ list_of_moves words_anagram
       (Node_new words_anagram (Endpoints_new "ab" "ba"))
     = Ok ["ab"]%string
  /\ "ab"%string <> "ba"%string.
Proof.
  split; [reflexivity|]. split; [reflexivity|]. split; [reflexivity|].
  discriminate.
Qed.

(** * Further properties *)

(** ** What a histogram counts *)

Lemma lower_alpha_range : forall c,
  isalpha (lower c) = true ->
  (97 <= nat_of_ascii (lower c) <= 122)%nat.
Proof.
  intros c H.
  assert (G : implb (isalpha (lower c))
                ((97 <=? nat_of_ascii (lower c))%nat
                 && (nat_of_ascii (lower c) <=? 122)%nat) = true).
  { clear H. destruct c as [[] [] [] [] [] [] [] []]; reflexivity. }
  rewrite H in G. cbn [implb] in G. apply andb_true_iff in G as [G1 G2].
  apply Nat.leb_le in G1, G2. lia.
Qed.

Lemma nth_bump : forall j h i,
  (j < length h)%nat ->
  nth i (bump j h) 0 = nth i h 0 + (if (i =? j)%nat then 1 else 0).
Proof.
  induction j as [|j IH]; intros [|c rest] i Hj; simpl in Hj; try lia.
  - destruct i; simpl; lia.
  - destruct i as [|i]; simpl; [lia|]. apply IH. lia.
Qed.

Lemma letter_of_eq : forall c i,
  (i < 26)%nat -> (c = letter_of i <-> nat_of_ascii c = (97 + i)%nat).
Proof.
  intros c i Hi. unfold letter_of. split.
  - intros ->. apply nat_ascii_embedding. lia.
  - intro H. rewrite <- H. symmetry. apply ascii_nat_embedding.
Qed.

Lemma fold_count_letter_nth : forall l h i,
  length h = 26%nat -> (i < 26)%nat ->
  (forall c, In c l -> isalpha c = true ->
             (97 <= nat_of_ascii c <= 122)%nat) ->
  nth i (fold_left count_letter l h) 0
  = nth i h 0
    + Z.of_nat (count_occ ascii_dec (filter isalpha l) (letter_of i)).
Proof.
  induction l as [|c l IH]; intros h i Hh Hi Hlow; simpl; [lia|].
  unfold count_letter at 2.
  destruct (isalpha c) eqn:Ea.
  - assert (Hc : (97 <= nat_of_ascii c <= 122)%nat)
      by (apply Hlow; auto; now left).
    rewrite IH; auto; [|now rewrite bump_length|intros; apply Hlow; auto; now right].
    rewrite nth_bump by lia. simpl.
    destruct (ascii_dec c (letter_of i)) as [E | N].
    + apply letter_of_eq in E; auto.
      replace (i =? nat_of_ascii c - 97)%nat with true
        by (symmetry; apply Nat.eqb_eq; lia).
      lia.
    + replace (i =? nat_of_ascii c - 97)%nat with false; [lia|].
      symmetry. apply Nat.eqb_neq. intro E. apply N.
      apply letter_of_eq; auto. lia.
  - apply IH; auto. intros; apply Hlow; auto. now right.
Qed.

Lemma word_to_histogram_fold : forall w,
  word_to_histogram w
  = fold_left count_letter (map lower (list_ascii_of_string w)) zeros26.
Proof. reflexivity. Qed.

Lemma word_to_histogram_nth : forall w i,
  (i < 26)%nat ->
  nth i (word_to_histogram w) 0
  = Z.of_nat (count_occ ascii_dec (letters w) (letter_of i)).
Proof.
  intros w i Hi. rewrite word_to_histogram_fold.
  rewrite fold_count_letter_nth; auto.
  - unfold zeros26. rewrite nth_repeat. reflexivity.
  - intros c Hc Ha. apply in_map_iff in Hc as [c0 [<- _]].
    now apply lower_alpha_range.
Qed.

Lemma letters_are_letters : forall w c,
  In c (letters w) -> exists i, (i < 26)%nat /\ c = letter_of i.
Proof.
  intros w c H. unfold letters in H. apply filter_In in H as [Hin Ha].
  apply in_map_iff in Hin as [c0 [<- _]].
  apply lower_alpha_range in Ha.
  exists (nat_of_ascii (lower c0) - 97)%nat. split; [lia|].
  apply letter_of_eq; lia.
Qed.

(** Equal histograms and rearranged letters are the same thing. *)
Lemma histogram_eq_iff_letters : forall w1 w2,
  word_to_histogram w1 = word_to_histogram w2
  <-> Permutation (letters w1) (letters w2).
Proof.
  intros w1 w2. rewrite (Permutation_count_occ ascii_dec). split.
  - intros E x.
    destruct (in_dec ascii_dec x (letters w1)) as [H1 | H1].
    + destruct (letters_are_letters _ _ H1) as [i [Hi ->]].
      apply Nat2Z.inj. rewrite <- !word_to_histogram_nth by auto.
      now rewrite E.
    + destruct (in_dec ascii_dec x (letters w2)) as [H2 | H2].
      * destruct (letters_are_letters _ _ H2) as [i [Hi ->]].
        apply Nat2Z.inj. rewrite <- !word_to_histogram_nth by auto.
        now rewrite E.
      * apply (count_occ_not_In ascii_dec) in H1, H2. congruence.
  - intro E. apply (nth_ext _ _ 0 0).
    + now rewrite !word_to_histogram_wf.
    + intros i Hi. rewrite word_to_histogram_wf in Hi.
      rewrite !word_to_histogram_nth by auto. now rewrite E.
Qed.

(** X1. Two words get the same histogram exactly when their letters, case
    and all other characters put aside, are rearrangements of each
    other. *)
Theorem anagrams_share_histogram : forall (w1 w2 : string),
  word_to_histogram w1 = word_to_histogram w2
  <-> Permutation (letters w1) (letters w2).
Proof. exact histogram_eq_iff_letters. Qed.

Lemma sum_bump : forall j h,
  (j < length h)%nat ->
  fold_right Z.add 0 (bump j h) = fold_right Z.add 0 h + 1.
Proof.
  induction j as [|j IH]; intros [|c rest] Hj; simpl in Hj; try lia.
  - simpl. lia.
  - simpl. rewrite IH by lia. lia.
Qed.

Lemma fold_count_letter_sum : forall l h,
  length h = 26%nat ->
  (forall c, In c l -> isalpha c = true ->
             (97 <= nat_of_ascii c <= 122)%nat) ->
  fold_right Z.add 0 (fold_left count_letter l h)
  = fold_right Z.add 0 h + Z.of_nat (length (filter isalpha l)).
Proof.
  induction l as [|c l IH]; intros h Hh Hlow; simpl; [lia|].
  unfold count_letter at 2.
  destruct (isalpha c) eqn:Ea.
  - assert (Hc : (97 <= nat_of_ascii c <= 122)%nat)
      by (apply Hlow; auto; now left).
    rewrite IH; [|now rewrite bump_length|intros; apply Hlow; auto; now right].
    rewrite sum_bump by lia. simpl length. lia.
  - apply IH; auto. intros; apply Hlow; auto. now right.
Qed.

(** X2. The histogram of a word has 26 entries; entry [i] is the number
    of occurrences of letter [i] among the letters of the word, so no entry
    is negative, and the entries add up to the number of letters. *)
Theorem word_to_histogram_counts : forall w,
  length (word_to_histogram w) = 26%nat
  /\ (forall i, (i < 26)%nat ->
        nth i (word_to_histogram w) 0
        = Z.of_nat (count_occ ascii_dec (letters w) (letter_of i)))
  /\ (forall c, In c (word_to_histogram w) -> 0 <= c)
  /\ fold_right Z.add 0 (word_to_histogram w)
     = Z.of_nat (length (letters w)).
Proof.
  intro w. split; [apply word_to_histogram_wf|].
  split; [intros; now apply word_to_histogram_nth|]. split.
  - intros c Hc. apply (In_nth _ _ 0) in Hc as [i [Hi <-]].
    rewrite word_to_histogram_wf in Hi.
    rewrite word_to_histogram_nth by auto. lia.
  - rewrite word_to_histogram_fold, fold_count_letter_sum.
    + reflexivity.
    + reflexivity.
    + intros c Hc Ha. apply in_map_iff in Hc as [c0 [<- _]].
      now apply lower_alpha_range.
Qed.

(** X3. On histograms of 26 entries the heuristic is a distance: it is
    not negative, symmetric, and 0 exactly between equal histograms; so the
    test [heuristic == 0] of [list_of_moves] and the test of
    [is_same_word] and [hist_to_index] accept the same pairs. *)
Theorem heuristic_is_a_metric : forall a b,
  wf_hist a -> wf_hist b ->
  0 <= heuristic a b
  /\ heuristic a b = heuristic b a
  /\ (heuristic a b = 0 <-> a = b)
  /\ (hist_eqb a b = true <-> heuristic a b = 0).
Proof.
  intros a b Wa Wb. unfold wf_hist in *.
  assert (Z0 : heuristic a b = 0 <-> a = b).
  { split; [apply heuristic_zero_eq; congruence|].
    intros ->. apply heuristic_refl. }
  split; [apply heuristic_nonneg|]. split; [apply heuristic_sym|].
  split; [exact Z0|]. rewrite hist_eqb_eq. symmetry. exact Z0.
Qed.

(** ** The costs of a successor *)

Lemma one_change_heuristic : forall a b,
  one_count_changed a b ->
  forall t, length t = length a ->
  heuristic a t = heuristic b t + 1 \/ heuristic a t = heuristic b t - 1.
Proof.
  induction 1 as [x y r Hxy | x r1 r2 H IH]; intros [|z t] Hl;
    try discriminate; rewrite !heuristic_cons.
  - lia.
  - injection Hl as Hl. destruct (IH t Hl); lia.
Qed.

(** X4. A successor has made one move more than the node it was expanded
    from, its heuristic is one more or one less, and so its total cost is
    the same or larger by 2: the total cost never decreases along a
    path. *)
Theorem successor_costs : forall g t next_hist new_index,
  wf_hist (current_hist t) -> wf_hist next_hist -> wf_hist (target_hist g) ->
  cost_h t = heuristic (current_hist t) (target_hist g) ->
  cost_total t = cost_f t + cost_h t ->
  heuristic next_hist (current_hist t) = 1 ->
  cost_f (successor g t next_hist new_index) = cost_f t + 1
  /\ (cost_h (successor g t next_hist new_index) = cost_h t - 1
      \/ cost_h (successor g t next_hist new_index) = cost_h t + 1)
  /\ (cost_total (successor g t next_hist new_index) = cost_total t
      \/ cost_total (successor g t next_hist new_index) = cost_total t + 2).
Proof.
  intros g t row i Wt Wr Wg Hh Htot H1. unfold wf_hist in *.
  apply heuristic_one_iff in H1; [|congruence].
  destruct (one_change_heuristic _ _ H1 (target_hist g)) as [E | E];
    [congruence| |]; simpl; rewrite Htot, Hh; lia.
Qed.

(** ** Looking words and nodes up *)

Lemma wordlist_nth_error : forall words_original k,
  nth_error (wordlist words_original) k
  = option_map word_to_histogram (nth_error words_original k).
Proof. intros ws k. unfold wordlist. apply nth_error_map. Qed.

(** X5. Every word of the dictionary is found, under any spelling with
    the same letters: the lookup returns an index not larger than the
    word's own, the word at that index has the same letters, and no earlier
    word has. *)
Theorem dictionary_words_are_found :
  forall (words_original : list string) (k : nat) (w w' : string),
    nth_error words_original k = Some w ->
    Permutation (letters w') (letters w) ->
    exists (j : nat) (wj : string),
      hist_to_index words_original (word_to_histogram w') = Z.of_nat j
      /\ (j <= k)%nat
      /\ nth_error words_original j = Some wj
      /\ Permutation (letters wj) (letters w')
      /\ forall i wi, (i < j)%nat -> nth_error words_original i = Some wi ->
           ~ Permutation (letters wi) (letters w').
Proof.
  intros ws k w w' Hk Hperm.
  apply histogram_eq_iff_letters in Hperm.
  assert (Hrow : nth_error (wordlist ws) k = Some (word_to_histogram w'))
    by (rewrite wordlist_nth_error, Hk, Hperm; reflexivity).
  destruct (hist_to_index_from_spec (wordlist ws) 0 (word_to_histogram w'))
    as [[_ Hno] | [j [Hj [Hnth Hfirst]]]].
  - exfalso. apply (Hno (word_to_histogram w')); auto.
    eapply nth_error_In; eauto.
  - fold (hist_to_index ws (word_to_histogram w')) in Hj.
    rewrite wordlist_nth_error in Hnth.
    destruct (nth_error ws j) as [wj|] eqn:Ej; [|discriminate].
    simpl in Hnth. injection Hnth as Hwj.
    exists j, wj. split; [lia|]. split; [|split; [exact Ej|split]].
    + destruct (le_lt_dec j k) as [Hle | Hlt]; auto.
      exfalso. exact (Hfirst k _ Hlt Hrow eq_refl).
    + now apply histogram_eq_iff_letters.
    + intros i wi Hi Hwi Hp. apply histogram_eq_iff_letters in Hp.
      apply (Hfirst i (word_to_histogram wi)); auto.
      rewrite wordlist_nth_error, Hwi. reflexivity.
Qed.

(** X6. [is_in_list] returns the first node of the list with the
    histogram of [self], and [False] exactly when the list has none. *)
Theorem is_in_list_first_match : forall (self : Node) (mylist : list Node),
  (is_in_list self mylist = None
   /\ forall nd, In nd mylist -> current_hist nd <> current_hist self)
  \/ (exists l1 nd l2,
        mylist = l1 ++ nd :: l2
        /\ is_in_list self mylist = Some nd
        /\ current_hist nd = current_hist self
        /\ forall m, In m l1 -> current_hist m <> current_hist self).
Proof.
  intros self. induction mylist as [|x rest IH]; simpl.
  - left. split; auto.
  - destruct (is_same_word self x) eqn:E.
    + apply is_same_word_eq in E. right. exists [], x, rest.
      repeat split; auto.
    + apply is_same_word_neq in E.
      destruct IH as [[Hn Hall] | [l1 [nd [l2 [-> [Hs [Hh Hl1]]]]]]].
      * left. split; auto. intros nd [<- | Hin]; auto.
      * right. exists (x :: l1), nd, l2. repeat split; auto.
        intros m [<- | Hm]; auto.
Qed.

(** ** What a step appends *)

Lemma visit_grows : forall g t c fr e,
  exists news, visit g t c fr e = fr ++ news.
Proof.
  intros g t c fr [i row].
  destruct (visit_spec g t c fr i row) as [E | [_ [_ [_ E]]]]; rewrite E.
  - exists []. now rewrite app_nil_r.
  - eauto.
Qed.

Lemma visit_covers : forall g t c fr new_index next_hist,
  heuristic next_hist (current_hist t) = 1 ->
  In next_hist (hists c)
  \/ In next_hist (hists (visit g t c fr (new_index, next_hist))).
Proof.
  intros g t c fr i row H1. unfold visit.
  rewrite H1. simpl. fold (successor g t row i).
  destruct (is_in_list (successor g t row i) c) eqn:Ec.
  - left. apply is_in_list_Some in Ec as [Hin Hh]. simpl in Hh.
    rewrite <- Hh. now apply hists_In.
  - right. destruct (is_in_list (successor g t row i) fr) eqn:Ef.
    + apply is_in_list_Some in Ef as [Hin Hh]. simpl in Hh.
      destruct (node_gt n (successor g t row i));
        rewrite <- Hh; now apply hists_In.
    + unfold hists. rewrite map_app. apply in_or_app. right. now left.
Qed.

Lemma expand_fold_covers : forall g t c entries fr new_index next_hist,
  In (new_index, next_hist) entries ->
  heuristic next_hist (current_hist t) = 1 ->
  In next_hist (hists c)
  \/ In next_hist (hists (fold_left (visit g t c) entries fr)).
Proof.
  intros g t c. induction entries as [|e entries IH]; intros fr i row Hin H1;
    cbn [fold_left]; [destruct Hin|].
  destruct Hin as [-> | Hin]; [|now apply (IH _ i row)].
  destruct (visit_covers g t c fr i row H1) as [Hc | Hf]; [now left|right].
  destruct (expand_fold_spec g t c entries (visit g t c fr (i, row)))
    as [news [-> _]].
  unfold hists. rewrite map_app. apply in_or_app. now left.
Qed.

Lemma expand_covers : forall words_original g t c fr next_hist,
  In next_hist (wordlist words_original) ->
  heuristic next_hist (current_hist t) = 1 ->
  In next_hist (hists c)
  \/ In next_hist (hists (expand words_original g t c fr)).
Proof.
  intros ws g t c fr row Hin H1.
  apply In_nth_error in Hin as [k Hk].
  apply (expand_fold_covers g t c _ fr (0 + Z.of_nat k) row); auto.
  apply enumerate_from_In. eauto.
Qed.

(** X8. A search step that returns no solution closes the node it popped
    and appends to the rest of the frontier exactly the successors it has
    to: each new node is the successor for a dictionary row one move away
    that was neither closed nor in the frontier, no two of them share a
    histogram, and afterwards every dictionary row one move away from the
    popped node is in the closed list or in the frontier. *)
Theorem search_step_expands_exactly :
  forall (words_original : list string) (sg sg' : SearchGraph),
    search_step words_original sg = Ok (None, sg') ->
    exists test_node rest news,
      sort (frontier sg) = test_node :: rest
      /\ cost_h test_node <> 0
      /\ ends sg' = ends sg
      /\ closed sg' = closed sg ++ [test_node]
      /\ frontier sg' = rest ++ news
      /\ NoDup (hists news)
      /\ (forall n, In n news ->
            exists (k : nat) next_hist,
              nth_error (wordlist words_original) k = Some next_hist
              /\ n = successor (ends sg) test_node next_hist (Z.of_nat k)
              /\ heuristic next_hist (current_hist test_node) = 1
              /\ ~ In next_hist (hists (closed sg'))
              /\ ~ In next_hist (hists rest))
      /\ (forall next_hist,
            In next_hist (wordlist words_original) ->
            heuristic next_hist (current_hist test_node) = 1 ->
            In next_hist (hists (closed sg'))
            \/ In next_hist (hists (frontier sg'))).
Proof.
  intros ws sg sg' Hstep.
  destruct (search_step_inv _ _ _ _ Hstep)
    as [n [rest [Hsort [He [[_ [Hr _]] | [Hh [_ [Hc Hf]]]]]]]];
    [discriminate|].
  destruct (expand_spec ws (ends sg) n (closed sg ++ [n]) rest)
    as [news [Hex [Hnd Hnews]]].
  exists n, rest, news. rewrite Hc, Hf.
  split; [exact Hsort|]. split; [exact Hh|]. split; [exact He|].
  split; [reflexivity|]. split; [exact Hex|]. split; [exact Hnd|].
  split; [exact Hnews|].
  intros row Hin H1. now apply expand_covers.
Qed.

(** ** The forward search on its own *)

Lemma reachable_snoc : forall words_original a b next_hist,
  reachable words_original a b ->
  In next_hist (wordlist words_original) ->
  heuristic next_hist b = 1 ->
  reachable words_original a next_hist.
Proof.
  intros ws a b row H. induction H as [h | h r h' Hin H1 Hr IH]; intros Hrow Hd.
  - apply (reach_move ws h row row); auto. apply reach_here.
  - apply (reach_move ws h r row); auto.
Qed.

Lemma valid_path_reachable : forall words_original start acts h,
  valid_path words_original start acts h ->
  reachable words_original start h.
Proof.
  induction 1 as [|acts h k row Hp IH Hk H1]; [apply reach_here|].
  eapply reachable_snoc; eauto. eapply nth_error_In; eauto.
Qed.

Lemma valid_path_wf : forall words_original start acts h,
  wf_hist start ->
  valid_path words_original start acts h -> wf_hist h.
Proof.
  intros ws start acts h W H. destruct H as [|acts h k row _ Hk _]; auto.
  eapply wordlist_wf, nth_error_In; eauto.
Qed.

Lemma reachable_sym : forall words_original a b,
  In a (wordlist words_original) ->
  reachable words_original a b -> reachable words_original b a.
Proof.
  intros ws a b Ha H. induction H as [h | h r h' Hin H1 Hr IH].
  - apply reach_here.
  - apply (reachable_snoc ws h' r h); auto.
    now rewrite heuristic_sym.
Qed.

Lemma explored_step : forall words_original g sg sg',
  explored words_original g sg ->
  Forall (weak_h g) (frontier sg) ->
  search_step words_original sg = Ok (None, sg') ->
  explored words_original g sg'.
Proof.
  intros ws g sg sg' [He Hs Hcl Hfar] Hw Hstep.
  destruct (search_step_inv _ _ _ _ Hstep)
    as [n [rest [Hsort [He' [[_ [Hr _]] | [Hh [_ [Hc Hf]]]]]]]];
    [discriminate|].
  destruct (expand_spec ws (ends sg) n (closed sg ++ [n]) rest)
    as [news [Hex _]].
  assert (Hn : In n (frontier sg))
    by (apply sort_In; rewrite Hsort; now left).
  assert (Hmove : forall h,
            In h (hists (frontier sg) ++ hists (closed sg)) ->
            In h (hists (frontier sg') ++ hists (closed sg'))).
  { intros h Hin. rewrite Hf, Hex, Hc. unfold hists. rewrite !map_app.
    rewrite !in_app_iff. simpl.
    apply in_app_or in Hin as [Hin | Hin]; [|auto].
    apply hists_sort in Hin. rewrite Hsort in Hin.
    destruct Hin as [<- | Hin]; auto. }
  constructor.
  - congruence.
  - now apply Hmove.
  - intros c row Hin Hrow H1. rewrite Hc in Hin. unfold hists in Hin.
    rewrite map_app in Hin. apply in_app_or in Hin as [Hin | [<- | []]].
    + apply Hmove. eapply Hcl; eauto.
    + rewrite Hf, Hc. apply in_or_app.
      destruct (expand_covers ws (ends sg) n (closed sg ++ [n]) rest row
                  Hrow H1); auto.
  - intros c Hin. rewrite Hc in Hin. unfold hists in Hin.
    rewrite map_app in Hin. apply in_app_or in Hin as [Hin | [<- | []]];
      [now apply Hfar|].
    rewrite Forall_forall in Hw. destruct (Hw n Hn) as [H0 | Hhe];
      [contradiction|].
    intro E. apply Hh. rewrite Hhe, E. apply heuristic_refl.
Qed.

Lemma explored_exhausted : forall words_original g sg,
  explored words_original g sg ->
  frontier sg = [] ->
  ~ reachable words_original (start_hist g) (target_hist g).
Proof.
  intros ws g sg [He Hs Hcl Hfar] Hempty Hreach.
  rewrite Hempty in Hs, Hcl. simpl in Hs, Hcl.
  assert (G : forall a b, reachable ws a b ->
                In a (hists (closed sg)) -> In b (hists (closed sg))).
  { induction 1 as [h | h r h' Hin H1 Hr IH]; auto.
    intro Hh. apply IH. eapply Hcl; eauto. }
  exact (Hfar _ (G _ _ Hreach Hs) eq_refl).
Qed.

Lemma sound_successor : forall words_original g t (k : nat) next_hist,
  sound_node words_original g t ->
  nth_error (wordlist words_original) k = Some next_hist ->
  heuristic next_hist (current_hist t) = 1 ->
  sound_node words_original g (successor g t next_hist (Z.of_nat k)).
Proof.
  intros ws g t k row [Hp Hl Hh Ht] Hk H1. constructor; simpl.
  - eapply path_move; eauto.
  - now apply successor_len_ok.
  - reflexivity.
  - reflexivity.
Qed.

Lemma sound_weak : forall words_original g n,
  sound_node words_original g n -> weak_h g n.
Proof. intros ws g n [_ _ Hh _]. now right. Qed.

Lemma weak_successor : forall g t next_hist new_index,
  weak_h g (successor g t next_hist new_index).
Proof. intros. right. reflexivity. Qed.

Lemma SearchGraph_new_explored : forall words_original s t,
  explored words_original (Endpoints_new s t)
    (SearchGraph_new words_original s t).
Proof.
  intros ws s t. constructor; simpl; auto; intros c [].
Qed.

Lemma SearchGraph_new_sound : forall words_original s t,
  Forall (sound_node words_original (Endpoints_new s t))
    (frontier (SearchGraph_new words_original s t)).
Proof.
  intros ws s t. constructor; [|constructor].
  constructor; simpl; try reflexivity. apply path_root.
Qed.

Lemma SearchGraph_search_found : forall words_original g fuel sg nd sg',
  ends sg = g ->
  Forall (sound_node words_original g) (frontier sg) ->
  SearchGraph_search words_original fuel sg = Some (Ok (Some nd, sg')) ->
  sound_node words_original g nd /\ cost_h nd = 0 /\ solution sg' = Some nd.
Proof.
  intros ws g. induction fuel as [|fuel IH]; intros sg nd sg' He HF H;
    simpl in H; [discriminate|].
  destruct (frontier sg) as [|x fr] eqn:Efr; [discriminate|].
  destruct (search_step ws sg) as [[r sg1]|e] eqn:Estep; [|discriminate].
  rewrite <- Efr in HF.
  destruct (search_step_Forall ws (sound_node ws g) (fun _ => True)
              sg r sg1) as [F1 [_ [He1 Hr]]]; auto.
  { intros t k row Pt _ Hk H1. rewrite He. now apply sound_successor. }
  { apply Forall_forall. auto. }
  destruct r as [nd1|].
  - injection H as <- <-. destruct (Hr nd1 eq_refl). auto.
  - apply (IH sg1); auto. congruence.
Qed.

Lemma SearchGraph_search_exhausted : forall words_original g fuel sg sg',
  explored words_original g sg ->
  Forall (weak_h g) (frontier sg) ->
  SearchGraph_search words_original fuel sg = Some (Ok (None, sg')) ->
  ~ reachable words_original (start_hist g) (target_hist g).
Proof.
  intros ws g. induction fuel as [|fuel IH]; intros sg sg' Hex HF H;
    simpl in H; [discriminate|].
  destruct (frontier sg) as [|x fr] eqn:Efr.
  - eapply explored_exhausted; eauto.
  - destruct (search_step ws sg) as [[r sg1]|e] eqn:Estep; [|discriminate].
    rewrite <- Efr in HF.
    destruct r as [nd1|]; [discriminate|].
    destruct (search_step_Forall ws (weak_h g) (fun _ => True)
                sg None sg1) as [F1 _]; auto.
    { intros t k row _ _ _ _. rewrite (ex_ends _ _ _ Hex).
      apply weak_successor. }
    { apply Forall_forall. auto. }
    apply (IH sg1 sg'); auto. eapply explored_step; eauto.
Qed.

Lemma SearchGraph_search_fuel : forall words_original s fuel sg,
  visited_inv words_original s sg ->
  (S (S (length words_original)) - length (closed sg) <= fuel)%nat ->
  exists r sg',
    SearchGraph_search words_original fuel sg = Some (Ok (r, sg')).
Proof.
  intros ws s. induction fuel as [|fuel IH]; intros sg Inv Hfuel.
  - pose proof (visited_closed_bound _ _ _ Inv). lia.
  - simpl. destruct (frontier sg) as [|x fr] eqn:Efr; [eauto|].
    destruct (search_step_nonempty ws sg) as [r [sg1 Hstep]];
      [rewrite Efr; discriminate|].
    rewrite Hstep. destruct r as [nd|]; [eauto|].
    destruct (search_step_visited _ _ _ _ Inv Hstep) as [Inv1 Hlen].
    apply IH; auto. lia.
Qed.

(** X9. A node that [SearchGraph.search] returns has the target's
    histogram and heuristic 0; its path starts with the index looked up for
    the start word and goes on through dictionary rows one move apart, with
    one entry more than the moves made; it is stored as the graph's
    solution, and the target is reachable from the start. *)
Theorem SearchGraph_search_sound :
  forall (words_original : list string) (start_word0 target_word0 : string)
         (fuel : nat) (nd : Node) (sg' : SearchGraph),
    SearchGraph_search words_original fuel
      (SearchGraph_new words_original start_word0 target_word0)
    = Some (Ok (Some nd, sg')) ->
    valid_path words_original (word_to_histogram start_word0)
      (actions nd) (current_hist nd)
    /\ current_hist nd = word_to_histogram target_word0
    /\ Z.of_nat (length (actions nd)) = cost_f nd + 1
    /\ cost_h nd = 0
    /\ cost_total nd = cost_f nd
    /\ solution sg' = Some nd
    /\ reachable words_original (word_to_histogram start_word0)
         (word_to_histogram target_word0).
Proof.
  intros ws s t fuel nd sg' H.
  destruct (SearchGraph_search_found ws (Endpoints_new s t) fuel
              (SearchGraph_new ws s t) nd sg'
              eq_refl (SearchGraph_new_sound ws s t) H)
    as [[Hp Hl Hh Ht] [H0 Hsol]].
  simpl in Hp, Hh.
  assert (Hc : current_hist nd = word_to_histogram t).
  { apply heuristic_zero_eq; [|congruence].
    rewrite (valid_path_wf _ _ _ _ (word_to_histogram_wf s) Hp).
    now rewrite word_to_histogram_wf. }
  repeat split; auto; try lia.
  rewrite <- Hc. eapply valid_path_reachable; eauto.
Qed.

(** X10. [SearchGraph.search] returns [None] only when no chain of moves
    through dictionary rows leads from the start word's histogram to the
    target word's. *)
Theorem SearchGraph_search_complete :
  forall (words_original : list string) (start_word0 target_word0 : string)
         (fuel : nat) (sg' : SearchGraph),
    SearchGraph_search words_original fuel
      (SearchGraph_new words_original start_word0 target_word0)
    = Some (Ok (None, sg')) ->
    ~ reachable words_original (word_to_histogram start_word0)
        (word_to_histogram target_word0).
Proof.
  intros ws s t fuel sg' H.
  apply (SearchGraph_search_exhausted ws (Endpoints_new s t) fuel _ sg'
           (SearchGraph_new_explored ws s t)); auto.
  constructor; [|constructor]. right. reflexivity.
Qed.

(** X11. [SearchGraph.search] ends within as many steps as the dictionary
    has rows, plus one, and without raising. *)
Theorem SearchGraph_search_terminates :
  forall (words_original : list string) (start_word0 target_word0 : string)
         (fuel : nat),
    (length words_original + 2 <= fuel)%nat ->
    exists r sg',
      SearchGraph_search words_original fuel
        (SearchGraph_new words_original start_word0 target_word0)
      = Some (Ok (r, sg')).
Proof.
  intros ws s t fuel Hfuel.
  apply (SearchGraph_search_fuel ws s).
  - constructor; simpl.
    + constructor; [intros [] | constructor].
    + intros h [<- | []]. now left.
  - simpl. lia.
Qed.

(** ** The words of a forward search *)

Lemma moves_of_app : forall words_original g acts index ws w,
  moves_of words_original g acts = Ok ws ->
  move_word words_original g index = Ok w ->
  moves_of words_original g (acts ++ [index]) = Ok (ws ++ [w]).
Proof.
  intros words g. induction acts as [|i rest IH]; intros index ws w H Hw;
    simpl in *.
  - injection H as <-. now rewrite Hw.
  - destruct (move_word words g i) as [wi|e]; [|discriminate]. simpl in *.
    destruct (moves_of words g rest) as [ws'|e]; [|discriminate].
    simpl in H. injection H as <-.
    now rewrite (IH index ws' w eq_refl Hw).
Qed.

Lemma move_word_row : forall words_original s t (k : nat) row,
  nth_error (wordlist words_original) k = Some row ->
  exists w,
    move_word words_original (Endpoints_new s t) (Z.of_nat k) = Ok w
    /\ word_to_histogram w = row
    /\ (w = s \/ w = t \/ In w words_original)
    /\ (row = word_to_histogram s -> w = s)
    /\ (row <> word_to_histogram s -> row = word_to_histogram t -> w = t).
Proof.
  intros words s t k row Hk. unfold move_word.
  rewrite (py_index_of_nat _ _ _ _ Hk).
  assert (Wrow : wf_hist row) by (eapply wordlist_wf, nth_error_In; eauto).
  cbn [start_hist target_hist start_word target_word Endpoints_new].
  destruct (heuristic row (word_to_histogram s) =? 0) eqn:Es.
  - apply heuristic_zero_iff in Es; auto using word_to_histogram_wf.
    exists s. repeat split; auto. congruence.
  - assert (Ns : row <> word_to_histogram s).
    { intros ->. rewrite heuristic_refl in Es. discriminate. }
    destruct (heuristic row (word_to_histogram t) =? 0) eqn:Et.
    + apply heuristic_zero_iff in Et; auto using word_to_histogram_wf.
      exists t. repeat split; auto; congruence.
    + assert (Nt : row <> word_to_histogram t).
      { intros ->. rewrite heuristic_refl in Et. discriminate. }
      rewrite wordlist_nth_error in Hk.
      destruct (nth_error words k) as [w|] eqn:Ew; [|discriminate].
      injection Hk as <-.
      rewrite (py_index_of_nat _ _ _ _ Ew).
      exists w. repeat split; try congruence.
      right. right. eapply nth_error_In; eauto.
Qed.

Lemma valid_path_moves : forall words_original s t acts h,
  In (word_to_histogram s) (wordlist words_original) ->
  valid_path words_original (word_to_histogram s) acts h ->
  exists ws,
    moves_of words_original (Endpoints_new s t) acts = Ok ws
    /\ hist_chain (word_to_histogram s) (map word_to_histogram ws) h
    /\ hd_error ws = Some s
    /\ Forall (fun w => w = s \/ w = t \/ In w words_original) ws
    /\ (h <> word_to_histogram s -> h = word_to_histogram t ->
        last ws s = t).
Proof.
  intros words s t acts h Hin H. induction H as [|acts h k row H IH Hk H1].
  - unfold hist_to_index.
    destruct (hist_to_index_from_spec (wordlist words) 0
                (word_to_histogram s)) as [[_ N] | [k [-> [Hk _]]]].
    { now destruct (N _ Hin). }
    destruct (move_word_row words s t k _ Hk) as [w [Hw [_ [_ [Hs _]]]]].
    rewrite (Hs eq_refl) in Hw. exists [s]. simpl. rewrite Hw. simpl.
    repeat split; auto.
    + constructor.
    + intros N. now destruct N.
  - destruct IH as [ws [Hm [Hc [Hh [HF _]]]]].
    destruct (move_word_row words s t k row Hk) as [w [Hw [Hr [Hor [_ Ht]]]]].
    exists (ws ++ [w]). split; [now apply moves_of_app|].
    split; [|split; [|split]].
    + rewrite map_app. simpl. rewrite Hr. now apply (chain_move _ _ h).
    + destruct ws; [discriminate | exact Hh].
    + apply Forall_app. split; auto.
    + intros N E. rewrite last_last. auto.
Qed.

Lemma SearchGraph_search_keeps :
  forall words_original g (P : Node -> Prop) fuel sg nd sg',
    ends sg = g ->
    (forall t (k : nat) row,
        P t ->
        nth_error (wordlist words_original) k = Some row ->
        heuristic row (current_hist t) = 1 ->
        P (successor g t row (Z.of_nat k))) ->
    Forall P (frontier sg) ->
    SearchGraph_search words_original fuel sg = Some (Ok (Some nd, sg')) ->
    P nd.
Proof.
  intros ws g P. induction fuel as [|fuel IH]; intros sg nd sg' He HP HF H;
    simpl in H; [discriminate|].
  destruct (frontier sg) as [|x fr] eqn:Efr; [discriminate|].
  destruct (search_step ws sg) as [[r sg1]|e] eqn:Estep; [|discriminate].
  rewrite <- Efr in HF.
  destruct (search_step_Forall ws P (fun _ => True) sg r sg1)
    as [F1 [_ [He1 Hr]]]; auto.
  { intros t k row Pt _ Hk H1. rewrite He. now apply HP. }
  { apply Forall_forall. auto. }
  destruct r as [nd1|].
  - injection H as <- _. now destruct (Hr nd1 eq_refl).
  - apply (IH sg1 nd sg'); auto. congruence.
Qed.

(** X20. When the start word's histogram is in the dictionary, the words
    that [list_of_moves] gives for a node returned by [SearchGraph.search]
    form a word ladder: one word more than the moves made, the first is the
    start word, the histogram of each further word is one move away from
    that of the word before it, the last histogram is the target's, and
    every word is the start word, the target word or a dictionary word. *)
Theorem SearchGraph_search_prints_ladder :
  forall (words_original : list string) (start_word0 target_word0 : string)
         (fuel : nat) (nd : Node) (sg' : SearchGraph),
    SearchGraph_search words_original fuel
      (SearchGraph_new words_original start_word0 target_word0)
    = Some (Ok (Some nd, sg')) ->
    In (word_to_histogram start_word0) (wordlist words_original) ->
    exists ws,
      list_of_moves words_original nd = Ok ws
      /\ Z.of_nat (length ws) = cost_f nd + 1
      /\ hd_error ws = Some start_word0
      /\ hist_chain (word_to_histogram start_word0)
           (map word_to_histogram ws) (word_to_histogram target_word0)
      /\ Forall (fun w => w = start_word0 \/ w = target_word0
                          \/ In w words_original) ws
      /\ (word_to_histogram start_word0 <> word_to_histogram target_word0 ->
          last ws start_word0 = target_word0).
Proof.
  intros ws s t fuel nd sg' H Hin.
  destruct (SearchGraph_search_found ws (Endpoints_new s t) fuel
              (SearchGraph_new ws s t) nd sg'
              eq_refl (SearchGraph_new_sound ws s t) H)
    as [[Hp Hl Hh Ht] [H0 _]].
  simpl in Hp, Hh.
  assert (Hc : current_hist nd = word_to_histogram t).
  { apply heuristic_zero_eq; [|congruence].
    rewrite (valid_path_wf _ _ _ _ (word_to_histogram_wf s) Hp).
    now rewrite word_to_histogram_wf. }
  assert (Hg : mygraph nd = Endpoints_new s t).
  { apply (SearchGraph_search_keeps ws (Endpoints_new s t)
             (fun n => mygraph n = Endpoints_new s t) fuel
             (SearchGraph_new ws s t) nd sg'); auto.
    constructor; [reflexivity | constructor]. }
  rewrite Hc in Hp.
  destruct (valid_path_moves ws s t _ _ Hin Hp)
    as [out [Hm [Hch [Hhd [HF Hlast]]]]].
  exists out. unfold list_of_moves. rewrite Hg.
  split; [exact Hm|]. split; [|split; [|split; [|split]]]; auto.
  apply moves_of_spec in Hm as [-> _]. exact Hl.
Qed.

(** ** The bidirectional search and the script *)

Lemma intersect_frame : forall A,
  fst (intersect A) = None
  /\ hists (frontier (north (snd (intersect A)))) = hists (frontier (north A))
  /\ hists (frontier (south (snd (intersect A)))) = hists (frontier (south A))
  /\ closed (north (snd (intersect A))) = closed (north A)
  /\ closed (south (snd (intersect A))) = closed (south A)
  /\ ends (north (snd (intersect A))) = ends (north A)
  /\ ends (south (snd (intersect A))) = ends (south A).
Proof.
  intro A. unfold intersect.
  pose proof (intersect_frontiers_None (frontier (north A)) (frontier (south A)))
    as Hnone.
  destruct (intersect_frontiers_spec (frontier (north A)) (frontier (south A)))
    as [[E _] | [pre1 [nd1 [post1 [pre2 [nd2 [post2
         [E1 [E2 [_ [_ [_ E]]]]]]]]]]]];
    destruct (intersect_frontiers (frontier (north A)) (frontier (south A)))
      as [r [a b]]; simpl in *; injection E as -> ->; subst r.
  - repeat split.
  - rewrite E1, E2. unfold hists. rewrite !map_app. simpl. repeat split.
Qed.

Lemma explored_ext : forall words_original g sg sg',
  hists (frontier sg') = hists (frontier sg) ->
  closed sg' = closed sg -> ends sg' = ends sg ->
  explored words_original g sg -> explored words_original g sg'.
Proof.
  intros ws g sg sg' Hf Hc He [H1 H2 H3 H4].
  constructor; rewrite ?Hf, ?Hc, ?He; auto.
Qed.

Lemma visited_ext : forall words_original s sg sg',
  hists (frontier sg') = hists (frontier sg) ->
  closed sg' = closed sg ->
  visited_inv words_original s sg -> visited_inv words_original s sg'.
Proof.
  intros ws s sg sg' Hf Hc [H1 H2]. constructor; rewrite Hf, Hc; auto.
Qed.

Lemma hist_to_index_range : forall words_original h,
  -1 <= hist_to_index words_original h < Z.of_nat (length words_original).
Proof.
  intros ws h. unfold hist_to_index.
  destruct (hist_to_index_from_spec (wordlist ws) 0 h)
    as [[-> _] | [k [-> [Hk _]]]]; [lia|].
  assert (k < length (wordlist ws))%nat
    by (apply nth_error_Some; congruence).
  unfold wordlist in H. rewrite length_map in H. lia.
Qed.

Lemma successor_in_range : forall words_original g t (k : nat) row,
  in_range words_original t ->
  nth_error (wordlist words_original) k = Some row ->
  in_range words_original (successor g t row (Z.of_nat k)).
Proof.
  intros ws g t k row Ht Hk. unfold in_range in *. simpl.
  apply Forall_app. split; auto. constructor; [|constructor].
  assert (k < length (wordlist ws))%nat
    by (apply nth_error_Some; congruence).
  unfold wordlist in H. rewrite length_map in H. lia.
Qed.

Lemma attach_bi_node : forall words_original g1 g2 a b,
  bi_node words_original g1 a -> bi_node words_original g2 b ->
  bi_node words_original g1 (fused_node a b)
  /\ bi_node words_original g2 (flipped_node a b).
Proof.
  intros ws g1 g2 a b [_ Ra] [Wb Rb]. unfold in_range in *. split; split.
  - now left.
  - simpl. apply Forall_app. split; auto. now apply Forall_rev.
  - exact Wb.
  - simpl. now apply Forall_rev.
Qed.

Lemma intersect_bi_explored : forall words_original s t A,
  bi_explored words_original s t A ->
  bi_explored words_original s t (snd (intersect A)).
Proof.
  intros ws s t A [EN ES FN FS VN VS].
  destruct (intersect_frame A) as [_ [H1 [H2 [C1 [C2 [E1 E2]]]]]].
  pose proof (intersect_frontiers_Forall _ _ _ _
                (fun a b Ha Hb _ =>
                   attach_bi_node ws (north_ends s t) (south_ends s t)
                     a b Ha Hb) FN FS)
    as [F1 F2].
  constructor.
  - eapply explored_ext; eauto.
  - eapply explored_ext; eauto.
  - unfold intersect.
    destruct (intersect_frontiers (frontier (north A)) (frontier (south A)))
      as [r [a b]]. exact F1.
  - unfold intersect.
    destruct (intersect_frontiers (frontier (north A)) (frontier (south A)))
      as [r [a b]]. exact F2.
  - eapply visited_ext; eauto.
  - eapply visited_ext; eauto.
Qed.

Lemma bi_node_step : forall words_original g sg r sg',
  ends sg = g ->
  Forall (bi_node words_original g) (frontier sg) ->
  search_step words_original sg = Ok (r, sg') ->
  Forall (bi_node words_original g) (frontier sg')
  /\ forall nd, r = Some nd -> bi_node words_original g nd.
Proof.
  intros ws g sg r sg' He HF Hstep.
  destruct (search_step_Forall ws (bi_node ws g) (fun _ => True)
              sg r sg') as [F1 [_ [_ Hr]]]; auto.
  - intros t k row [_ Rt] _ Hk _. rewrite He. split.
    + apply weak_successor.
    + now apply successor_in_range.
  - apply Forall_forall. auto.
  - split; auto. intros nd E. now destruct (Hr nd E).
Qed.

Lemma bi_node_weak : forall words_original g l,
  Forall (bi_node words_original g) l -> Forall (weak_h g) l.
Proof.
  intros ws g l H. eapply Forall_impl; [|exact H]. now intros n [Hw _].
Qed.

Lemma BiSearchGraph_new_explored : forall words_original s t,
  bi_explored words_original s t (BiSearchGraph_new words_original s t).
Proof.
  intros ws s t.
  assert (R : forall a b,
            bi_node ws (Endpoints_new a b) (Node_new ws (Endpoints_new a b))).
  { intros a b. split; [right; reflexivity|].
    constructor; [|constructor]. apply hist_to_index_range. }
  assert (V : forall a b, visited_inv ws a (SearchGraph_new ws a b)).
  { intros a b. constructor; simpl.
    - constructor; [intros [] | constructor].
    - intros h [<- | []]. now left. }
  constructor; simpl.
  - apply SearchGraph_new_explored.
  - apply (SearchGraph_new_explored ws t s).
  - constructor; [apply R | constructor].
  - constructor; [apply (R t s) | constructor].
  - apply V.
  - apply V.
Qed.

(** What one pass through the loop body can give. *)
Lemma search_round_explored : forall words_original s t A,
  bi_explored words_original s t A ->
  frontier (north A) <> [] -> frontier (south A) <> [] ->
  search_round words_original A = Raise NameError
  \/ (exists nd, search_round words_original A = Ok (inl (Some nd))
                 /\ in_range words_original nd)
  \/ (exists A', search_round words_original A = Ok (inr A')
                 /\ bi_explored words_original s t A').
Proof.
  intros ws s t A Inv HN HS. unfold search_round.
  destruct (search_step_nonempty ws (north A) HN) as [r1 [n1 E1]].
  rewrite E1. simpl.
  destruct Inv as [EN ES FN FS VN VS].
  destruct (bi_node_step ws _ _ _ _ (ex_ends _ _ _ EN) FN E1) as [FN1 Hr1].
  destruct r1 as [nd|].
  { right. left. exists nd. split; auto. now destruct (Hr1 nd eq_refl). }
  assert (Inv1 : bi_explored ws s t (with_north A n1)).
  { constructor; simpl; auto.
    - eapply explored_step; eauto. now apply bi_node_weak in FN.
    - now destruct (search_step_visited _ _ _ _ VN E1). }
  pose proof (intersect_bi_explored _ _ _ _ Inv1) as Inv2.
  destruct (intersect_frame (with_north A n1)) as [Hnone [_ [H2 _]]].
  destruct (intersect (with_north A n1)) as [r2 A2].
  simpl in Hnone, Inv2, H2. subst r2.
  assert (HS2 : frontier (south A2) <> []).
  { intro E. rewrite E in H2. destruct (frontier (south A)); [auto|].
    discriminate. }
  destruct (search_step_nonempty ws (south A2) HS2) as [r3 [s3 E3]].
  rewrite E3. simpl.
  destruct r3 as [nd|]; [now left|].
  destruct Inv2 as [EN2 ES2 FN2 FS2 VN2 VS2].
  destruct (bi_node_step ws _ _ _ _ (ex_ends _ _ _ ES2) FS2 E3) as [FS3 _].
  assert (Inv3 : bi_explored ws s t (with_south A2 s3)).
  { constructor; simpl; auto.
    - eapply explored_step; eauto. now apply bi_node_weak in FS2.
    - now destruct (search_step_visited _ _ _ _ VS2 E3). }
  pose proof (intersect_bi_explored _ _ _ _ Inv3) as Inv4.
  destruct (intersect_frame (with_south A2 s3)) as [Hnone4 _].
  destruct (intersect (with_south A2 s3)) as [r4 A4].
  simpl in Hnone4, Inv4. subst r4.
  right. right. eauto.
Qed.

Lemma is_empty_false : forall (A : Type) (l : list A),
  is_empty l = false <-> l <> [].
Proof. intros A [|x l]; simpl; split; congruence. Qed.

(** What the search can give, and in which state it gives [None]. *)
Lemma search_outcomes : forall words_original s t fuel A r,
  bi_explored words_original s t A ->
  search words_original fuel A = Some r ->
  r = Raise NameError
  \/ (exists nd, r = Ok (Some nd) /\ in_range words_original nd)
  \/ (r = Ok None
      /\ exists A', bi_explored words_original s t A'
                    /\ (frontier (north A') = [] \/ frontier (south A') = [])).
Proof.
  intros ws s t. induction fuel as [|fuel IH]; intros A r Inv H; simpl in H;
    [discriminate|].
  destruct (is_empty (frontier (north A)) || is_empty (frontier (south A)))
    eqn:Eg.
  - injection H as <-. right. right. split; auto. exists A. split; auto.
    apply orb_true_iff in Eg as [E | E]; [left | right];
      destruct (frontier _); auto; discriminate.
  - apply orb_false_iff in Eg as [EgN EgS].
    apply is_empty_false in EgN, EgS.
    destruct (search_round_explored ws s t A Inv EgN EgS)
      as [E | [[nd [E Hr]] | [A' [E Inv']]]]; rewrite E in H.
    + injection H as <-. now left.
    + injection H as <-. right. left. eauto.
    + eapply IH; eauto.
Qed.

Lemma py_index_in_range : forall (A : Type) (l : list A) i,
  l <> [] -> -1 <= i < Z.of_nat (length l) ->
  exists x, py_index l i = Some x.
Proof.
  intros A l i Hl Hi. unfold py_index.
  assert (0 < length l)%nat by (destruct l; [contradiction | simpl; lia]).
  destruct ((0 <=? i) && (i <? Z.of_nat (length l))) eqn:E1.
  - apply andb_true_iff in E1 as [E1 E2].
    apply Z.leb_le in E1. apply Z.ltb_lt in E2.
    destruct (nth_error l (Z.to_nat i)) eqn:E; [eauto|].
    apply nth_error_None in E. lia.
  - assert (i = -1).
    { apply andb_false_iff in E1 as [E1 | E1];
        [apply Z.leb_gt in E1 | apply Z.ltb_ge in E1]; lia. }
    subst i.
    replace ((- Z.of_nat (length l) <=? -1) && (-1 <? 0)) with true
      by (symmetry; apply andb_true_iff; split;
          [apply Z.leb_le | apply Z.ltb_lt]; lia).
    destruct (nth_error l (Z.to_nat (Z.of_nat (length l) + -1))) eqn:E;
      [eauto|].
    apply nth_error_None in E. lia.
Qed.

Lemma moves_of_in_range : forall words_original g acts,
  words_original <> [] ->
  Forall (fun index => -1 <= index < Z.of_nat (length words_original)) acts ->
  exists ws, moves_of words_original g acts = Ok ws
             /\ length ws = length acts.
Proof.
  intros words g acts Hne. induction 1 as [|i acts Hi _ IH]; simpl.
  - now exists [].
  - assert (Hw : exists w, move_word words g i = Ok w).
    { unfold move_word.
      destruct (py_index_in_range _ (wordlist words) i) as [row ->].
      - unfold wordlist. destruct words; [contradiction | discriminate].
      - unfold wordlist. now rewrite length_map.
      - destruct (heuristic row (start_hist g) =? 0); [eauto|].
        destruct (heuristic row (target_hist g) =? 0); [eauto|].
        destruct (py_index_in_range _ words i Hne Hi) as [w ->]. eauto. }
    destruct Hw as [w ->]. destruct IH as [ws [-> Hlen]]. simpl.
    exists (w :: ws). split; [reflexivity | simpl; congruence].
Qed.

(** X13. On ASCII words (the two arguments and every line of the word
    file) and with a dictionary that is not empty the script never ends in
    an IndexError: it ends in the NameError of the undefined [flip], in the
    AttributeError of [None.display_moves()], or it prints one word for
    each path entry of the node found. *)
Theorem run_never_index_error :
  forall (words_original : list string) (start_word0 target_word0 : string)
         (fuel : nat) (out : result (list string)),
    Forall ascii_word words_original ->
    ascii_word start_word0 -> ascii_word target_word0 ->
    words_original <> [] ->
    run words_original fuel start_word0 target_word0 = Some out ->
    out = Raise NameError
    \/ out = Raise AttributeError
    \/ exists nd ws,
         search words_original fuel
           (BiSearchGraph_new words_original start_word0 target_word0)
         = Some (Ok (Some nd))
         /\ out = Ok ws
         /\ length ws = length (actions nd).
Proof.
  intros words s t fuel out _ _ _ Hne H. unfold run in H.
  destruct (search words fuel (BiSearchGraph_new words s t)) as [r|] eqn:E;
    [|discriminate].
  destruct (search_outcomes words s t fuel _ r
              (BiSearchGraph_new_explored words s t) E)
    as [-> | [[nd [-> Hr]] | [-> _]]].
  - injection H as <-. now left.
  - injection H as <-. right. right.
    destruct (moves_of_in_range words (mygraph nd) (actions nd) Hne Hr)
      as [ws [Hws Hlen]].
    exists nd, ws. auto.
  - injection H as <-. right. now left.
Qed.

(** X14. When the start word's histogram is in the dictionary, the
    bidirectional search returns [None] only when no chain of moves through
    dictionary rows leads from the start word's histogram to the target
    word's. *)
Theorem search_none_unreachable :
  forall (words_original : list string) (start_word0 target_word0 : string)
         (fuel : nat),
    search words_original fuel
      (BiSearchGraph_new words_original start_word0 target_word0)
    = Some (Ok None) ->
    In (word_to_histogram start_word0) (wordlist words_original) ->
    ~ reachable words_original (word_to_histogram start_word0)
        (word_to_histogram target_word0).
Proof.
  intros words s t fuel H Hin Hreach.
  destruct (search_outcomes words s t fuel _ _
              (BiSearchGraph_new_explored words s t) H)
    as [E | [[nd [E _]] | [_ [A' [[EN ES _ _ _ _] [Hempty | Hempty]]]]]];
    try discriminate.
  - exact (explored_exhausted _ _ _ EN Hempty Hreach).
  - apply (explored_exhausted _ _ _ ES Hempty). simpl.
    now apply reachable_sym.
Qed.

Lemma bi_reachable_explored : forall words_original s t A,
  bi_reachable words_original s t A -> bi_explored words_original s t A.
Proof.
  induction 1 as [|A A' _ IH Hg Hround].
  - apply BiSearchGraph_new_explored.
  - apply orb_false_iff in Hg as [EgN EgS].
    apply is_empty_false in EgN, EgS.
    destruct (search_round_explored _ _ _ A IH EgN EgS)
      as [E | [[nd [E _]] | [A2 [E Inv']]]]; rewrite E in Hround;
      try discriminate.
    injection Hround as <-. exact Inv'.
Qed.

(** X15. Whenever the loop of the bidirectional search starts a pass, no
    histogram is twice in the frontier and closed lists of a graph taken
    together, and each of them is the histogram of the graph's own start
    word or a dictionary row. *)
Theorem no_histogram_twice :
  forall (words_original : list string) (start_word0 target_word0 : string)
         (A : BiSearchGraph),
    bi_reachable words_original start_word0 target_word0 A ->
    NoDup (hists (frontier (north A)) ++ hists (closed (north A)))
    /\ NoDup (hists (frontier (south A)) ++ hists (closed (south A)))
    /\ (forall h, In h (hists (frontier (north A)) ++ hists (closed (north A)))
          -> h = word_to_histogram start_word0
             \/ In h (wordlist words_original))
    /\ (forall h, In h (hists (frontier (south A)) ++ hists (closed (south A)))
          -> h = word_to_histogram target_word0
             \/ In h (wordlist words_original)).
Proof.
  intros words s t A Hreach.
  destruct (bi_reachable_explored _ _ _ _ Hreach)
    as [_ _ _ _ [N1 I1] [N2 I2]].
  repeat split; auto.
  - intros h Hh. destruct (I1 h Hh); auto.
  - intros h Hh. destruct (I2 h Hh); auto.
Qed.

(** X16. [intersect] returns [None] on every input.  It leaves the closed
    lists alone and keeps the histograms of both frontiers, in order; when
    no forward frontier node shares its histogram with a backward frontier
    node it changes nothing. *)
Theorem intersect_returns_none :
  forall (A : BiSearchGraph),
    fst (intersect A) = None
    /\ hists (frontier (north (snd (intersect A))))
       = hists (frontier (north A))
    /\ hists (frontier (south (snd (intersect A))))
       = hists (frontier (south A))
    /\ closed (north (snd (intersect A))) = closed (north A)
    /\ closed (south (snd (intersect A))) = closed (south A)
    /\ ((forall a b, In a (frontier (north A)) -> In b (frontier (south A)) ->
           current_hist a <> current_hist b) ->
        snd (intersect A) = A).
Proof.
  intro A.
  destruct (intersect_frame A) as [H0 [H1 [H2 [H3 [H4 _]]]]].
  repeat split; auto.
  intro Hno. unfold intersect.
  destruct (intersect_frontiers_spec (frontier (north A)) (frontier (south A)))
    as [[E _] | [pre1 [nd1 [post1 [pre2 [nd2 [post2
         [E1 [E2 [Hs _]]]]]]]]]].
  - destruct (intersect_frontiers (frontier (north A)) (frontier (south A)))
      as [r [a b]]. simpl in E. injection E as -> ->.
    destruct A as [[e1 f1 c1 s1] [e2 f2 c2 s2] sol]. reflexivity.
  - exfalso. apply (Hno nd1 nd2); auto.
    + rewrite E1. apply in_or_app. right. now left.
    + rewrite E2. apply in_or_app. right. now left.
Qed.

(** Between words with the same letters the first step ends the search. *)
Lemma search_anagram : forall words_original s t fuel,
  word_to_histogram s = word_to_histogram t ->
  search words_original (S fuel) (BiSearchGraph_new words_original s t)
  = Some (Ok (Some (Node_new words_original (Endpoints_new s t)))).
Proof.
  intros ws s t fuel E. cbn [search]. simpl is_empty. cbn [orb].
  unfold search_round, search_step. simpl frontier. cbn [sort fold_right insert].
  unfold Node_new at 1. cbn [cost_h]. cbn [start_hist target_hist Endpoints_new].
  rewrite E, heuristic_refl. reflexivity.
Qed.


(** X18. With an empty dictionary the script, called on two ASCII words,
    always ends in an exception: an IndexError when the two words have the
    same letters, as the root's path entry [-1] addresses no row, and
    otherwise the AttributeError of [None.display_moves()] after one
    pass. *)
Theorem empty_dictionary :
  forall (start_word0 target_word0 : string) (fuel : nat),
    ascii_word start_word0 -> ascii_word target_word0 ->
    run [] (S (S fuel)) start_word0 target_word0
    = Some (Raise (if hist_eqb (word_to_histogram start_word0)
                               (word_to_histogram target_word0)
                   then IndexError else AttributeError)).
Proof.
  intros s t fuel _ _.
  destruct (hist_eqb (word_to_histogram s) (word_to_histogram t)) eqn:E.
  - apply hist_eqb_eq in E. unfold run.
    rewrite (search_anagram [] s t (S fuel) E). reflexivity.
  - apply hist_eqb_neq in E.
    assert (N1 : (heuristic (word_to_histogram s) (word_to_histogram t) =? 0)
                 = false).
    { apply Z.eqb_neq. intro H. apply E.
      apply heuristic_zero_eq; auto. now rewrite !word_to_histogram_wf. }
    assert (N2 : (heuristic (word_to_histogram t) (word_to_histogram s) =? 0)
                 = false) by now rewrite heuristic_sym.
    unfold run. cbn [search]. simpl is_empty. cbn [orb].
    unfold search_round, search_step. simpl frontier.
    cbn [sort fold_right insert].
    unfold Node_new at 1. cbn [cost_h start_hist target_hist Endpoints_new].
    rewrite N1. cbn [bind]. unfold intersect at 1. simpl.
    rewrite N2. reflexivity.
Qed.

(** X12. The loop of [BiSearchGraph.search] ends within as many passes as
    the dictionary has rows, plus one.  It ends by returning a node with
    heuristic 0 or [None], or in the NameError of the undefined [flip]; no
    other exception is raised. *)
Theorem BiSearchGraph_search_terminates :
  forall (words_original : list string) (start_word0 target_word0 : string)
         (fuel : nat),
    (length words_original + 2 <= fuel)%nat ->
    exists r,
      search words_original fuel
        (BiSearchGraph_new words_original start_word0 target_word0) = Some r
      /\ (r = Raise NameError
          \/ r = Ok None
          \/ exists nd, r = Ok (Some nd) /\ cost_h nd = 0).
Proof.
  intros ws s t fuel Hfuel.
  destruct (search ws fuel (BiSearchGraph_new ws s t)) as [r|] eqn:E.
  - exists r. split; [reflexivity|].
    destruct (search_outcomes ws s t fuel _ r
                (BiSearchGraph_new_explored ws s t) E)
      as [-> | [[nd [-> _]] | [-> _]]]; auto.
    right. right. exists nd. split; [reflexivity|].
    now destruct (search_found_inv ws s t fuel _ nd
                    (BiSearchGraph_new_inv ws s t) E).
  - exfalso. revert E. apply (search_enough_fuel ws s).
    + constructor; simpl.
      * constructor; [intros [] | constructor].
      * intros h [<- | []]. now left.
    + simpl. lia.
Qed.

(** X19. The four comparison methods of [Node] agree with each other, and
    [<] is the strict part of a total preorder on nodes: it is
    irreflexive and transitive, and so is its complement. *)
Theorem comparisons_consistent : forall (a b c : Node),
  node_gt a b = node_lt b a
  /\ node_ge a b = negb (node_lt a b)
  /\ node_le a b = negb (node_gt a b)
  /\ node_lt a a = false
  /\ (node_lt a b = true -> node_lt b c = true -> node_lt a c = true)
  /\ (node_lt a b = false -> node_lt b c = false -> node_lt a c = false).
Proof.
  intros a b c. unfold node_gt, node_ge, node_le, node_lt.
  rewrite Z.gtb_ltb, Z.geb_leb.
  destruct (Z.ltb_spec (cost_total a) (cost_total b));
    destruct (Z.ltb_spec (cost_total b) (cost_total c));
    destruct (Z.ltb_spec (cost_total a) (cost_total c));
    destruct (Z.ltb_spec (cost_total b) (cost_total a));
    destruct (Z.ltb_spec (cost_total a) (cost_total a));
    destruct (Z.leb_spec (cost_total b) (cost_total a));
    destruct (Z.leb_spec (cost_total a) (cost_total b));
    repeat split; try reflexivity; try discriminate; lia.
Qed.

(** * Further runs *)

(** The start word x is not in [words_no_start].  The forward search alone
    finds the ladder over xa, xay, xaby, xabcy to xabc; the bidirectional
    search returns [None], as the backward frontier runs empty first. *)
Lemma search_none_needs_start_word :
  ~ In (word_to_histogram "x") (wordlist words_no_start)
  /\ search words_no_start 6 (BiSearchGraph_new words_no_start "x" "xabc")
     = Some (Ok None)
  /\ exists nd sg',
       SearchGraph_search words_no_start 10
         (SearchGraph_new words_no_start "x" "xabc")
       = Some (Ok (Some nd, sg'))
       /\ actions nd = [-1; 2; 4; 5; 6; 7].
Proof.
  split; [|split].
  - lazy. intuition discriminate.
  - lazy; reflexivity.
  - do 2 eexists. split; lazy; reflexivity.
Qed.

Lemma heuristic_is_a_metric_witness :
  wf_hist (word_to_histogram "cat")
  /\ wf_hist (word_to_histogram "cot")
  /\ 0 <= heuristic (word_to_histogram "cat") (word_to_histogram "cot")
  /\ heuristic (word_to_histogram "cat") (word_to_histogram "cot")
     = heuristic (word_to_histogram "cot") (word_to_histogram "cat")
  /\ (heuristic (word_to_histogram "cat") (word_to_histogram "cot") = 0
      <-> word_to_histogram "cat" = word_to_histogram "cot")
  /\ (hist_eqb (word_to_histogram "cat") (word_to_histogram "cot") = true
      <-> heuristic (word_to_histogram "cat") (word_to_histogram "cot") = 0).
Proof.
  split; [reflexivity|]. split; [reflexivity|].
  apply heuristic_is_a_metric; reflexivity.
Defined.

Lemma successor_costs_witness :
  cost_f (successor (Endpoints_new "cat" "cot")
            (Node_new words_fixture (Endpoints_new "cat" "cot"))
            (word_to_histogram "ct") 6)
  = cost_f (Node_new words_fixture (Endpoints_new "cat" "cot")) + 1
  /\ (cost_h (successor (Endpoints_new "cat" "cot")
                (Node_new words_fixture (Endpoints_new "cat" "cot"))
                (word_to_histogram "ct") 6)
      = cost_h (Node_new words_fixture (Endpoints_new "cat" "cot")) - 1
      \/ cost_h (successor (Endpoints_new "cat" "cot")
                   (Node_new words_fixture (Endpoints_new "cat" "cot"))
                   (word_to_histogram "ct") 6)
         = cost_h (Node_new words_fixture (Endpoints_new "cat" "cot")) + 1)
  /\ (cost_total (successor (Endpoints_new "cat" "cot")
                    (Node_new words_fixture (Endpoints_new "cat" "cot"))
                    (word_to_histogram "ct") 6)
      = cost_total (Node_new words_fixture (Endpoints_new "cat" "cot"))
      \/ cost_total (successor (Endpoints_new "cat" "cot")
                       (Node_new words_fixture (Endpoints_new "cat" "cot"))
                       (word_to_histogram "ct") 6)
         = cost_total (Node_new words_fixture (Endpoints_new "cat" "cot"))
           + 2).
Proof.
  apply successor_costs; reflexivity.
Defined.

Lemma dictionary_words_are_found_witness :
  nth_error ["tac"; "cot"; "cat"]%string 2 = Some "cat"%string
  /\ Permutation (letters "Act!") (letters "cat")
  /\ exists (j : nat) (wj : string),
      hist_to_index ["tac"; "cot"; "cat"]%string (word_to_histogram "Act!")
      = Z.of_nat j
      /\ (j <= 2)%nat
      /\ nth_error ["tac"; "cot"; "cat"]%string j = Some wj
      /\ Permutation (letters wj) (letters "Act!")
      /\ forall i wi, (i < j)%nat ->
           nth_error ["tac"; "cot"; "cat"]%string i = Some wi ->
           ~ Permutation (letters wi) (letters "Act!").
Proof.
  assert (P : Permutation (letters "Act!") (letters "cat"))
    by (apply perm_swap).
  split; [reflexivity|]. split; [exact P|].
  exact (dictionary_words_are_found
           ["tac"; "cot"; "cat"]%string 2 "cat" "Act!" eq_refl P).
Defined.

Lemma search_step_expands_exactly_witness :
  exists sg',
    search_step words_fan (SearchGraph_new words_fan "a" "abc")
    = Ok (None, sg')
    /\ exists test_node rest news,
        sort (frontier (SearchGraph_new words_fan "a" "abc"))
        = test_node :: rest
        /\ cost_h test_node <> 0
        /\ ends sg' = ends (SearchGraph_new words_fan "a" "abc")
        /\ closed sg'
           = closed (SearchGraph_new words_fan "a" "abc") ++ [test_node]
        /\ frontier sg' = rest ++ news
        /\ NoDup (hists news)
        /\ (forall n, In n news ->
              exists (k : nat) next_hist,
                nth_error (wordlist words_fan) k = Some next_hist
                /\ n = successor (ends (SearchGraph_new words_fan "a" "abc"))
                         test_node next_hist (Z.of_nat k)
                /\ heuristic next_hist (current_hist test_node) = 1
                /\ ~ In next_hist (hists (closed sg'))
                /\ ~ In next_hist (hists rest))
        /\ (forall next_hist,
              In next_hist (wordlist words_fan) ->
              heuristic next_hist (current_hist test_node) = 1 ->
              In next_hist (hists (closed sg'))
              \/ In next_hist (hists (frontier sg'))).
Proof.
  eexists. split; [lazy; reflexivity|].
  apply (search_step_expands_exactly words_fan). lazy; reflexivity.
Defined.

Lemma SearchGraph_search_sound_witness :
  exists nd sg',
    SearchGraph_search words_abc 4 (SearchGraph_new words_abc "a" "abc")
    = Some (Ok (Some nd, sg'))
    /\ actions nd = [0; 1; 2]
    /\ valid_path words_abc (word_to_histogram "a")
         (actions nd) (current_hist nd)
    /\ current_hist nd = word_to_histogram "abc"
    /\ Z.of_nat (length (actions nd)) = cost_f nd + 1
    /\ cost_h nd = 0
    /\ cost_total nd = cost_f nd
    /\ solution sg' = Some nd
    /\ reachable words_abc (word_to_histogram "a") (word_to_histogram "abc").
Proof.
  do 2 eexists. split; [lazy; reflexivity|]. split; [reflexivity|].
  eapply (SearchGraph_search_sound words_abc "a" "abc" 4).
  lazy; reflexivity.
Defined.

Lemma SearchGraph_search_prints_ladder_witness :
  exists nd sg',
    SearchGraph_search words_abc 4 (SearchGraph_new words_abc "a" "abc")
    = Some (Ok (Some nd, sg'))
    /\ In (word_to_histogram "a") (wordlist words_abc)
    /\ exists ws,
        list_of_moves words_abc nd = Ok ws
        /\ Z.of_nat (length ws) = cost_f nd + 1
        /\ hd_error ws = Some "a"%string
        /\ hist_chain (word_to_histogram "a")
             (map word_to_histogram ws) (word_to_histogram "abc")
        /\ Forall (fun w => w = "a"%string \/ w = "abc"%string
                            \/ In w words_abc) ws
        /\ (word_to_histogram "a" <> word_to_histogram "abc" ->
            last ws "a"%string = "abc"%string).
Proof.
  do 2 eexists. split; [lazy; reflexivity|]. split; [left; reflexivity|].
  eapply (SearchGraph_search_prints_ladder words_abc "a" "abc" 4).
  - lazy; reflexivity.
  - left; reflexivity.
Defined.

Lemma SearchGraph_search_complete_witness :
  exists sg',
    SearchGraph_search words_fixture 8
      (SearchGraph_new words_fixture "cat" "cop") = Some (Ok (None, sg'))
    /\ ~ reachable words_fixture (word_to_histogram "cat")
           (word_to_histogram "cop").
Proof.
  eexists. split; [lazy; reflexivity|].
  eapply (SearchGraph_search_complete words_fixture "cat" "cop" 8).
  lazy; reflexivity.
Defined.

Lemma SearchGraph_search_terminates_witness :
  (length words_fixture + 2 <= 8)%nat
  /\ exists r sg',
      SearchGraph_search words_fixture 8
        (SearchGraph_new words_fixture "cat" "cop") = Some (Ok (r, sg')).
Proof.
  assert (H : (length words_fixture + 2 <= 8)%nat) by (simpl; lia).
  split; [exact H|].
  exact (SearchGraph_search_terminates words_fixture "cat" "cop" 8 H).
Defined.

Lemma BiSearchGraph_search_terminates_witness :
  (length words_abc + 2 <= 5)%nat
  /\ exists r,
      search words_abc 5 (BiSearchGraph_new words_abc "a" "abc") = Some r
      /\ (r = Raise NameError
          \/ r = Ok None
          \/ exists nd, r = Ok (Some nd) /\ cost_h nd = 0).
Proof.
  assert (H : (length words_abc + 2 <= 5)%nat) by (simpl; lia).
  split; [exact H|].
  exact (BiSearchGraph_search_terminates words_abc "a" "abc" 5 H).
Defined.

Lemma run_never_index_error_witness :
  Forall ascii_word words_abc
  /\ ascii_word "a" /\ ascii_word "abc"
  /\ words_abc <> []
  /\ run words_abc 2 "a" "abc" = Some (Ok ["a"; "ab"; "ab"; "abc"]%string)
  /\ (Ok ["a"; "ab"; "ab"; "abc"]%string = Raise NameError
      \/ Ok ["a"; "ab"; "ab"; "abc"]%string = Raise AttributeError
      \/ exists nd ws,
           search words_abc 2 (BiSearchGraph_new words_abc "a" "abc")
           = Some (Ok (Some nd))
           /\ Ok ["a"; "ab"; "ab"; "abc"]%string = Ok ws
           /\ length ws = length (actions nd)).
Proof.
  assert (F : Forall ascii_word words_abc)
    by (repeat constructor).
  assert (H : words_abc <> []) by discriminate.
  split; [exact F|]. split; [reflexivity|]. split; [reflexivity|].
  split; [exact H|]. split; [lazy; reflexivity|].
  apply (run_never_index_error words_abc "a" "abc" 2 _ F eq_refl eq_refl H).
  lazy; reflexivity.
Defined.

Lemma empty_dictionary_witness :
  ascii_word "ab" /\ ascii_word "ba" /\ ascii_word "abc"
  /\ run [] 2 "ab" "ba" = Some (Raise IndexError)
  /\ run [] 2 "ab" "abc" = Some (Raise AttributeError).
Proof.
  split; [reflexivity|]. split; [reflexivity|]. split; [reflexivity|].
  split.
  - exact (empty_dictionary "ab" "ba" 0 eq_refl eq_refl).
  - exact (empty_dictionary "ab" "abc" 0 eq_refl eq_refl).
Defined.

Lemma search_none_unreachable_witness :
  search words_fixture 8 (BiSearchGraph_new words_fixture "cat" "cop")
  = Some (Ok None)
  /\ In (word_to_histogram "cat") (wordlist words_fixture)
  /\ ~ reachable words_fixture (word_to_histogram "cat")
         (word_to_histogram "cop").
Proof.
  assert (H1 : search words_fixture 8
                 (BiSearchGraph_new words_fixture "cat" "cop")
               = Some (Ok None)) by (lazy; reflexivity).
  assert (H2 : In (word_to_histogram "cat") (wordlist words_fixture))
    by (left; reflexivity).
  split; [exact H1|]. split; [exact H2|].
  exact (search_none_unreachable words_fixture "cat" "cop" 8 H1 H2).
Defined.

Lemma no_histogram_twice_witness :
  exists A1,
    search_round words_abc (BiSearchGraph_new words_abc "a" "abc")
    = Ok (inr A1)
    /\ bi_reachable words_abc "a" "abc" A1
    /\ NoDup (hists (frontier (north A1)) ++ hists (closed (north A1)))
    /\ NoDup (hists (frontier (south A1)) ++ hists (closed (south A1)))
    /\ (forall h,
          In h (hists (frontier (north A1)) ++ hists (closed (north A1))) ->
          h = word_to_histogram "a" \/ In h (wordlist words_abc))
    /\ (forall h,
          In h (hists (frontier (south A1)) ++ hists (closed (south A1))) ->
          h = word_to_histogram "abc" \/ In h (wordlist words_abc)).
Proof.
  eexists. split; [lazy; reflexivity|].
  match goal with
  | |- ?R /\ _ =>
      assert (HR : R)
        by (eapply reach_round;
            [apply reach_new | lazy; reflexivity | lazy; reflexivity])
  end.
  split; [exact HR|].
  exact (no_histogram_twice _ _ _ _ HR).
Defined.

